(** * backend-youtube: chunk planner, paginator, resolver and aggregation

    A shallow embedding of the TypeScript sources
    - [src/autochunk.ts]   (the chunk planner [autochunk]),
    - [src/index.ts]       (the report-only server), and
    - the persisting server (the file that imports [./autochunk] and
      [./db/schema]),
    followed by the properties established about them. *)

From stdpp Require Import gmap strings list fin_maps pretty.
From Stdlib Require Import ZArith Lia Ascii.

Local Open Scope Z_scope.

(** ** JavaScript values and effects *)

Module Js.

(** Values stored under the keys of a record ([unknown] in the source). *)
Inductive prim :=
| PUndefined
| PNull
| PString (s : string)
| PNumber (n : Z).

(** [T extends Record<string, unknown> | string | number]. *)
Inductive value :=
| VString (s : string)
| VNumber (n : Z)
| VObject (fields : gmap string prim).

(** Thrown values; every throw site of the sources raises an [Error], the
    runtime raises [TypeError] when a missing property is dereferenced. *)
Inductive exn :=
| Error (message : string)
| TypeError (message : string).

(** lodash's [isPlainObject] on the values above. *)
Definition isPlainObject (v : value) : bool :=
  match v with
  | VObject _ => true
  | _ => false
  end.

(** [Object.keys(v).length] *)
Definition keys_length (v : value) : Z :=
  match v with
  | VObject fields => Z.of_nat (size fields)
  | VString s => Z.of_nat (String.length s)
  | VNumber _ => 0
  end.

(** Truthiness of a string: only the empty string is falsy. *)
Definition truthy (s : string) : bool :=
  match s with
  | EmptyString => false
  | String _ _ => true
  end.

(** An awaited computation over a world [St]: it either fulfils with a
    value or rejects with a thrown value, and leaves a new world. *)
Definition M (St A : Type) : Type := St → (exn + A) * St.

Definition ret {St A} (a : A) : M St A := λ s, (inr a, s).

Definition throw {St A} (e : exn) : M St A := λ s, (inl e, s).

Definition bind {St A B} (m : M St A) (k : A → M St B) : M St B :=
  λ s, match m s with
       | (inl e, s') => (inl e, s')
       | (inr a, s') => k a s'
       end.

(** [try { m } catch (error) { h error }] *)
Definition try_catch {St A} (m : M St A) (h : exn → M St A) : M St A :=
  λ s, match m s with
       | (inl e, s') => h e s'
       | (inr a, s') => (inr a, s')
       end.

End Js.

Import Js.

Notation "'await' x := m 'in' k" := (Js.bind m (λ x, k))
  (at level 10, x name, m at level 100, k at level 200, only parsing).

(** The runtime representation of an item; the planner inspects it by
    reflection. *)
Class ToJs (T : Type) := to_js : T → Js.value.

#[export] Instance value_ToJs : ToJs Js.value := λ v, v.

(** ** src/autochunk.ts *)

Definition D1_MAX_PARAMETERS : Z := 100.

(** The two [Error]s the planner throws itself. *)
Definition PrecheckFailed : exn :=
  Error ("otherParametersCount cannot be more than " +:+ pretty D1_MAX_PARAMETERS).

Definition ItemTooLarge (itemParameters : Z) : exn :=
  Error ("Item has too many parameters (" +:+ pretty itemParameters +:+ ")").

Section Autochunk.
Context {T U St : Type} `{ToJs T}.

(** [isPlainObject(item) ? Object.keys(item).length : 1] *)
Definition itemParameters (item : T) : Z :=
  if isPlainObject (to_js item) then keys_length (to_js item) else 1.

(** State of the planning loop: [chunks], [chunk], [chunkParameters]. *)
Record planner := Planner {
  chunks : list (list T);
  chunk : list T;
  chunkParameters : Z
}.

(** The [for (const item of items)] loop. *)
Fixpoint plan_loop (otherParametersCount : Z) (items : list T) (p : planner)
  : exn + planner :=
  match items with
  | [] => inr p
  | item :: rest =>
      if D1_MAX_PARAMETERS <? itemParameters item then
        inl (ItemTooLarge (itemParameters item))
      else if D1_MAX_PARAMETERS <?
                chunkParameters p + itemParameters item + otherParametersCount
      then
        plan_loop otherParametersCount rest
          (Planner (chunks p ++ [chunk p]) [item] (itemParameters item))
      else
        plan_loop otherParametersCount rest
          (Planner (chunks p) (chunk p ++ [item])
                   (chunkParameters p + itemParameters item))
  end.

(** Everything before the execution loop: the pre-check, the planning
    loop and the closing of the trailing chunk. *)
Definition plan (items : list T) (otherParametersCount : Z)
  : exn + list (list T) :=
  if D1_MAX_PARAMETERS <? otherParametersCount then inl PrecheckFailed
  else
    match plan_loop otherParametersCount items (Planner [] [] 0) with
    | inl e => inl e
    | inr p =>
        inr (if (0 <? length (chunk p))%nat
             then chunks p ++ [chunk p] else chunks p)
    end.

(** [for (const chunk of chunks) { results.push(await cb(chunk)) }] *)
Fixpoint run_chunks (cb : list T → M St (list U)) (todo : list (list T))
    (results : list (list U)) : M St (list (list U)) :=
  match todo with
  | [] => ret results
  | c :: todo' =>
      await result := cb c in
      run_chunks cb todo' (results ++ [result])
  end.

Definition autochunk (items : list T) (cb : list T → M St (list U))
    (otherParametersCount : Z) : M St (list U) :=
  match plan items otherParametersCount with
  | inl e => throw e
  | inr chunks =>
      await results := run_chunks cb chunks [] in
      ret (concat results)
  end.

(** The planner reaches its execution phase when planning did not throw. *)
Definition reaches_execution (items : list T) (otherParametersCount : Z) : Prop :=
  ∃ chunks, plan items otherParametersCount = inr chunks.

(** A spy around a callback: the world is extended with the list of the
    batches the callback has been invoked on, oldest first. *)
Definition spy (cb : list T → M St (list U))
  : list T → M (list (list T) * St) (list U) :=
  λ c '(log, s),
    match cb c s with
    | (r, s') => (r, (log ++ [c], s'))
    end.

(** An operation that is not spied on leaves the log as it is. *)
Definition unspied {A} (m : M St A) : M (list (list T) * St) A :=
  λ '(log, s),
    match m s with
    | (r, s') => (r, (log, s'))
    end.

(** Parameter cost of a batch: the sum of the costs of its items. *)
Definition batch_cost (c : list T) : Z :=
  foldr (λ item acc, itemParameters item + acc) 0 c.

(** A sequence of batches is greedy for a reserved count when every batch
    after the first starts with an item that no longer fitted into the batch
    before it. *)
Inductive greedy (otherParametersCount : Z) : list (list T) → Prop :=
| greedy_nil : greedy otherParametersCount []
| greedy_one c : greedy otherParametersCount [c]
| greedy_cons c1 x c2 cs :
    D1_MAX_PARAMETERS < batch_cost c1 + itemParameters x + otherParametersCount →
    greedy otherParametersCount ((x :: c2) :: cs) →
    greedy otherParametersCount (c1 :: (x :: c2) :: cs).

End Autochunk.

Arguments planner : clear implicits.

(** ** Regular expressions, as far as [urlRegex] needs them *)

Module Regex.

Inductive regex :=
| Eps
| Bol                             (* ^ *)
| Eol                             (* $ *)
| Chr (c : ascii)
| Class (p : ascii → bool)        (* [...] *)
| Seq (r1 r2 : regex)
| Alt (r1 r2 : regex)             (* r1|r2 *)
| Opt (r : regex)                 (* r? *)
| Times (n : nat) (r : regex)     (* r{n} *)
| Plus (r : regex)                (* r+ *)
| Group (i : nat) (r : regex).    (* the i-th capturing group *)

(** A literal string. *)
Fixpoint lit (s : string) : regex :=
  match s with
  | EmptyString => Eps
  | String c s' => Seq (Chr c) (lit s')
  end.

Definition between (lo hi c : ascii) : bool :=
  Ascii.leb lo c && Ascii.leb c hi.

(** [\w] *)
Definition word (c : ascii) : bool :=
  between "a" "z" c || between "A" "Z" c || between "0" "9" c
  || Ascii.eqb c "_".

Definition one_of (cs : string) (c : ascii) : bool :=
  existsb (Ascii.eqb c) (String.list_ascii_of_string cs).

Abbreviation captures := (gmap nat string).

Section Exec.
Variable input : string.

(** Backtracking matcher in continuation-passing style: [s] is the rest
    of [input] still to be read, [k] the rest of the pattern. The first
    alternative that lets [k] succeed wins; quantifiers are greedy. *)
Fixpoint exec (r : regex) (s : string) (caps : captures)
    (k : string → captures → option captures) : option captures :=
  match r with
  | Eps => k s caps
  | Bol =>
      if (String.length s =? String.length input)%nat then k s caps else None
  | Eol =>
      match s with
      | EmptyString => k s caps
      | String _ _ => None
      end
  | Chr c =>
      match s with
      | String c' s' => if Ascii.eqb c c' then k s' caps else None
      | EmptyString => None
      end
  | Class p =>
      match s with
      | String c' s' => if p c' then k s' caps else None
      | EmptyString => None
      end
  | Seq r1 r2 => exec r1 s caps (λ s' caps', exec r2 s' caps' k)
  | Alt r1 r2 =>
      match exec r1 s caps k with
      | Some m => Some m
      | None => exec r2 s caps k
      end
  | Opt r' =>
      match exec r' s caps k with
      | Some m => Some m
      | None => k s caps
      end
  | Times n r' =>
      (fix rep (n : nat) (s : string) (caps : captures) :=
         match n with
         | O => k s caps
         | S n' => exec r' s caps (λ s' caps', rep n' s' caps')
         end) n s caps
  | Plus r' =>
      (fix loop (fuel : nat) (s : string) (caps : captures) :=
         match fuel with
         | O => None
         | S fuel' =>
             exec r' s caps (λ s' caps',
               let again :=
                 if (String.length s' <? String.length s)%nat
                 then loop fuel' s' caps' else None in
               match again with
               | Some m => Some m
               | None => k s' caps'
               end)
         end) (S (String.length s)) s caps
  | Group i r' =>
      exec r' s caps (λ s' caps',
        k s' (<[i := String.substring 0 (String.length s - String.length s') s]> caps'))
  end.

(** Try the pattern at the position where [s] starts, then further right. *)
Fixpoint search (r : regex) (s : string) : option captures :=
  match exec (Group 0 r) s ∅ (λ _ caps, Some caps) with
  | Some m => Some m
  | None =>
      match s with
      | EmptyString => None
      | String _ s' => search r s'
      end
  end.
End Exec.

(** [input.match(r)] for a pattern without the [g] flag. *)
Definition str_match (input : string) (r : regex) : option captures :=
  search input r input.

End Regex.

(** ** The identity resolver (the same text in both servers) *)

Module Resolver.
Import Regex.

(** [/^https?:\/\/(www\.)?youtube\.com\/(channel\/UC[\w-]{21}[AQgw]|(c\/|user\/)?[\w@-]+)$/] *)
Definition urlRegex : regex :=
  Seq Bol
 (Seq (lit "http") (Seq (Opt (Chr "s")) (Seq (lit "://")
 (Seq (Opt (Group 1 (lit "www.")))
 (Seq (lit "youtube.com/")
 (Seq (Group 2
         (Alt (Seq (lit "channel/UC")
              (Seq (Times 21 (Class (λ c, word c || Ascii.eqb c "-")))
                   (Class (one_of "AQgw"))))
              (Seq (Opt (Group 3 (Alt (lit "c/") (lit "user/"))))
                   (Plus (Class (λ c, word c || one_of "@-" c))))))
      Eol)))))).

Definition startsWith (input pre : string) : bool := String.prefix pre input.

Definition extractUsername (input : string) : option string :=
  if startsWith input "@" then Some input
  else
    match str_match input urlRegex with
    | Some m => m !! 2%nat
    | None => None
    end.

End Resolver.

(** ** Upstream API payloads and the rows built from them *)

Module Api.

(** An element of [PlaylistItemResponse.items]; [snippet_thumbnail] is
    [item.snippet.thumbnails?.high?.url]. *)
Record playlist_item := PlaylistItem {
  snippet_title : string;
  snippet_videoId : string;
  snippet_thumbnail : option string
}.

(** [PlaylistItemResponse]; a payload without [items] (an error body, for
    instance) has [page_items = None]. *)
Record playlist_page := PlaylistPage {
  page_items : option (list playlist_item);
  nextPageToken : option string
}.

(** An element of [VideoStatisticsResponse.items]. *)
Record stats_item := StatsItem {
  id : string;
  statistics_viewCount : string;
  statistics_likeCount : string;
  statistics_commentCount : string
}.

Record stats_page := StatsPage {
  stats_items : option (list stats_item)
}.

(** [{ videoId, videoTitle, thumbnailUrl }] *)
Record video := Video {
  videoId : string;
  videoTitle : string;
  thumbnailUrl : option string
}.

(** [{ videoId, viewCount, likeCount, commentCount }] *)
Record stat := Stat {
  stat_videoId : string;
  viewCount : string;
  likeCount : string;
  commentCount : string
}.

Definition to_video (item : playlist_item) : video :=
  Video (snippet_videoId item) (snippet_title item) (snippet_thumbnail item).

Definition to_stat (item : stats_item) : stat :=
  Stat (id item) (statistics_viewCount item) (statistics_likeCount item)
       (statistics_commentCount item).

(** The record substituted for a video without statistics. *)
Definition not_available (id : string) : stat := Stat id "N/A" "N/A" "N/A".

(** [x || "N/A"] on a count that may be missing ([stat?.viewCount]). *)
Definition or_NA (x : option string) : string :=
  match x with
  | Some s => if truthy s then s else "N/A"
  | None => "N/A"
  end.

(** [stats.find(s => s.videoId === id)] *)
Definition find_stat (stats : list stat) (id : string) : option stat :=
  List.find (λ s, String.eqb (stat_videoId s) id) stats.

Definition playlistItems_url (apiKey playlistId : string) : string :=
  "https://youtube.googleapis.com/youtube/v3/playlistItems?part=snippet&maxResults=50&playlistId="
    +:+ playlistId +:+ "&key=" +:+ apiKey.

(** [videoIds.join(',')] *)
Fixpoint join (sep : string) (l : list string) : string :=
  match l with
  | [] => ""
  | [x] => x
  | x :: l' => x +:+ sep +:+ join sep l'
  end.

Definition videos_url (apiKey : string) (videoIds : list string) : string :=
  "https://youtube.googleapis.com/youtube/v3/videos?part=statistics&id="
    +:+ join "," videoIds +:+ "&key=" +:+ apiKey.

Definition watch_url (videoId : string) : string :=
  "https://www.youtube.com/watch?v=" +:+ videoId.

(** [Promise.all(ps)] for promises created in list order: the world
    serves the requests in the order in which they were issued. *)
Fixpoint all {St A} (ps : list (M St A)) : M St (list A) :=
  match ps with
  | [] => ret []
  | p :: ps' =>
      await r := p in
      await rs := all ps' in
      ret (r :: rs)
  end.

(** [for (let i = 0; i < videoIds.length; i += batchSize)] collecting
    [videoIds.slice(i, i + batchSize)]; [fuel] bounds the iterations. *)
Fixpoint slices (fuel : nat) (batchSize i : nat) (videoIds : list string)
  : list (list string) :=
  match fuel with
  | O => []
  | S fuel' =>
      if (i <? length videoIds)%nat
      then take batchSize (drop i videoIds)
             :: slices fuel' batchSize (i + batchSize) videoIds
      else []
  end.

(** [nextPageToken ? `${url}&pageToken=${nextPageToken}` : url] *)
Definition page_url (url : string) (nextPageToken : option string) : string :=
  match nextPageToken with
  | Some t => if truthy t then url +:+ "&pageToken=" +:+ t else url
  | None => url
  end.

Section Paging.
Context {W : Type} (fetch : string → M W playlist_page).

(** The [do { ... } while (nextPageToken)] loop shared by the two
    servers (one pushes the videos of a page one by one, the other all at
    once). [None] stands for a loop that is still running when [fuel]
    iterations have been made; a payload without [items] makes the runtime
    throw a [TypeError] when the loop body reads it. *)
Fixpoint pages (fuel : nat) (url : string) (nextPageToken : option string)
    (videos : list video) (w : W) : option ((exn + list video) * W) :=
  match fuel with
  | O => None
  | S fuel' =>
      let apiUrl := page_url url nextPageToken in
      match fetch apiUrl w with
      | (inl e, w') => Some (inl e, w')
      | (inr data, w') =>
          match page_items data with
          | None => Some (inl (TypeError "data.items is undefined"), w')
          | Some items =>
              let videos' := videos ++ (to_video <$> items) in
              match Api.nextPageToken data with
              | Some t =>
                  if truthy t then pages fuel' url (Some t) videos' w'
                  else Some (inr videos', w')
              | None => Some (inr videos', w')
              end
          end
      end
  end.

(** A run of the loop in which a page request fails: [served] lists the
    items of the pages fetched before, in order. The failing request
    either rejects (network error, unparsable body) or delivers a
    payload without [items]. *)
Inductive fails_after (url : string)
  : option string → W → list (list playlist_item) → W → Prop :=
| fails_rejected token w e w' :
    fetch (page_url url token) w = (inl e, w') →
    fails_after url token w [] w'
| fails_malformed token w next w' :
    fetch (page_url url token) w = (inr (PlaylistPage None next), w') →
    fails_after url token w [] w'
| fails_later token w items t w1 served w' :
    fetch (page_url url token) w
      = (inr (PlaylistPage (Some items) (Some t)), w1) →
    truthy t = true →
    fails_after url (Some t) w1 served w' →
    fails_after url token w (items :: served) w'.
End Paging.

Section Statistics.
Context {W : Type} (fetch : string → M W stats_page).

(** [s] was delivered by some fulfilled statistics request. *)
Definition returned (s : stat) : Prop :=
  ∃ url w items w',
    fetch url w = (inr (StatsPage (Some items)), w') ∧ s ∈ to_stat <$> items.
End Statistics.

(** [YouTubeChannelResponse]; every level below [items] may be missing in
    a payload. *)
Record related_playlists := RelatedPlaylists {
  uploads : option string
}.

Record content_details := ContentDetails {
  relatedPlaylists : option related_playlists
}.

Record channel_item := ChannelItem {
  contentDetails : option content_details
}.

Record channels_page := ChannelsPage {
  channel_items : option (list channel_item)
}.

Definition channels_url (apiKey username : string) : string :=
  "https://youtube.googleapis.com/youtube/v3/channels?part=snippet,contentDetails,statistics&forHandle="
    +:+ username +:+ "&key=" +:+ apiKey.

(** A string that may be missing is truthy when it is there and not empty. *)
Definition truthy_opt (x : option string) : bool :=
  match x with
  | Some s => truthy s
  | None => false
  end.

Section Serving.
Context {W : Type} (fetch : string → M W playlist_page).

(** A run of the paging loop in which every request is answered: [served]
    lists the items of the pages in order; every page but the last names a
    non-empty token, the last page names none (or an empty one). *)
Inductive serves (url : string)
  : option string → W → list (list playlist_item) → W → Prop :=
| serves_last token w items next w' :
    fetch (page_url url token) w = (inr (PlaylistPage (Some items) next), w') →
    truthy_opt next = false →
    serves url token w [items] w'
| serves_more token w items t w1 served w' :
    fetch (page_url url token) w
      = (inr (PlaylistPage (Some items) (Some t)), w1) →
    truthy t = true →
    serves url (Some t) w1 served w' →
    serves url token w (items :: served) w'.
End Serving.

(** A recorder around a fetch: the world is extended with the list of the
    URLs requested, oldest first. *)
Definition recording {W A} (fetch : string → M W A)
  : string → M (list string * W) A :=
  λ url '(log, w),
    match fetch url w with
    | (r, w') => (r, (log ++ [url], w'))
    end.

(** A recorder that also keeps what each request came to: the world is
    extended with the list of the requests made, oldest first, each with
    its outcome. *)
Definition observing {W A} (fetch : string → M W A)
  : string → M (list (string * (exn + A)) * W) A :=
  λ url '(log, w),
    match fetch url w with
    | (r, w') => (r, (log ++ [(url, r)], w'))
    end.

(** The statistics records in the outcome of a request: those of the items
    of a fulfilled request that carries items, none otherwise. *)
Definition delivered (r : exn + stats_page) : list stat :=
  match r with
  | inr (StatsPage (Some items)) => to_stat <$> items
  | _ => []
  end.


End Api.

(** ** src/index.ts: the report-only server *)

Module IndexTs.
Import Api.

(** One row of the report. *)
Record entry := Entry {
  videoID : string;
  title : string;
  url : string;
  entry_viewCount : string;
  entry_likeCount : string;
  entry_commentCount : string;
  entry_thumbnailUrl : option string
}.

Section Server.
Context {W : Type}.
Variable fetch_playlistItems : string → M W playlist_page.
Variable fetch_videos : string → M W stats_page.

(** The whole loop sits in a [try]; the handler returns a fresh []. *)
Definition getPlaylistVideos (fuel : nat) (apiKey playlistId : string) (w : W)
  : option ((exn + list video) * W) :=
  match pages fetch_playlistItems fuel (playlistItems_url apiKey playlistId)
              None [] w with
  | None => None
  | Some (inl error, w') => Some (inr [], w')
  | Some (inr videos, w') => Some (inr videos, w')
  end.

Definition getVideoStatistics (apiKey : string) (videoIds : list string)
  : M W (list stat) :=
  try_catch
    (await data := fetch_videos (videos_url apiKey videoIds) in
     match stats_items data with
     | None | Some [] => ret (not_available <$> videoIds)
     | Some items =>
         let stats := to_stat <$> items in
         ret ((λ id, default (not_available id) (find_stat stats id))
                <$> videoIds)
     end)
    (λ error, ret (not_available <$> videoIds)).

Definition batchGetVideoStatistics (apiKey : string) (videoIds : list string)
  : M W (list stat) :=
  let batchSize := 50%nat in
  let batches :=
    getVideoStatistics apiKey
      <$> slices (length videoIds) batchSize 0 videoIds in
  await results := all batches in
  ret (concat results).

Definition videosWithStats (videos : list video) (stats : list stat)
  : list entry :=
  (λ video,
     let stat := find_stat stats (videoId video) in
     Entry (videoId video) (videoTitle video) (watch_url (videoId video))
           (or_NA (viewCount <$> stat)) (or_NA (likeCount <$> stat))
           (or_NA (commentCount <$> stat)) (thumbnailUrl video))
    <$> videos.
(** What the handler of [GET /] sends: a plain sentence, or the report
    object that is serialised as the body. The status is 200 throughout. *)
Inductive response :=
| Text (body : string)
| Report (status : string) (totalVideos : nat) (elapsedTime : Z)
         (videos : list entry).

Variable fetch_channels : string → M W channels_page.
(** [Date.now()], read off the world. *)
Variable now : W → Z.

Definition getUploadsChannelId (apiKey username : string)
  : M W (option string) :=
  try_catch
    (await data := fetch_channels (channels_url apiKey username) in
     match channel_items data with
     | Some (item :: _) =>
         match contentDetails item with
         | None => throw (TypeError "contentDetails is undefined")
         | Some details =>
             match relatedPlaylists details with
             | None => throw (TypeError "relatedPlaylists is undefined")
             | Some playlists => ret (uploads playlists)
             end
         end
     | _ => throw (Error "No valid channel found")
     end)
    (λ error, ret None).

(** [app.get('/', ...)]; [query] is [c.req.query('url')]. *)
Definition handler (fuel : nat) (apiKey : string) (query : option string) (w : W)
  : option ((exn + response) * W) :=
  let startTime := now w in
  if negb (truthy_opt query) then
    Some (inr (Text "URL or username is missing"), w)
  else
    let username := Resolver.extractUsername (default "" query) in
    if negb (truthy_opt username) then
      Some (inr (Text "Invalid input (either a YouTube URL or a username is required)"), w)
    else
      match getUploadsChannelId apiKey (default "" username) w with
      | (inl e, w1) => Some (inl e, w1)
      | (inr uploadsChannelId, w1) =>
          if negb (truthy_opt uploadsChannelId) then
            Some (inr (Text "Unable to fetch uploads channel ID."), w1)
          else
            match getPlaylistVideos fuel apiKey (default "" uploadsChannelId) w1 with
            | None => None
            | Some (inl e, w2) => Some (inl e, w2)
            | Some (inr videos, w2) =>
                if (0 <? length videos)%nat then
                  match batchGetVideoStatistics apiKey (videoId <$> videos) w2 with
                  | (inl e, w3) => Some (inl e, w3)
                  | (inr stats, w3) =>
                      let videosWithStats := videosWithStats videos stats in
                      let endTime := now w3 in
                      let elapsedTime := endTime - startTime in
                      Some (inr (Report "200 OK" (length videosWithStats)
                                        elapsedTime videosWithStats), w3)
                  end
                else
                  Some (inr (Text "No videos found in the playlist."), w2)
            end
      end.
End Server.

End IndexTs.

(** ** The persisting server *)

Module Persisting.
Import Api.

(** One row of the report. *)
Record entry := Entry {
  videoID : string;
  channelName : string;
  title : string;
  url : string;
  entry_viewCount : string;
  entry_likeCount : string;
  entry_commentCount : string;
  entry_thumbnailUrl : option string
}.

(** The rows handed to [db.insert(videos).values(...)]. *)
Record video_row := VideoRow {
  row_videoId : string;
  row_channelId : Z;
  row_title : string;
  row_url : string;
  row_thumbnailUrl : option string
}.

Definition prim_of_option (x : option string) : prim :=
  match x with
  | Some s => PString s
  | None => PUndefined
  end.

(** A row is an object literal with five keys. *)
#[export] Instance video_row_ToJs : ToJs video_row := λ r,
  VObject (<["videoId" := PString (row_videoId r)]>
          (<["channelId" := PNumber (row_channelId r)]>
          (<["title" := PString (row_title r)]>
          (<["url" := PString (row_url r)]>
          (<["thumbnailUrl" := prim_of_option (row_thumbnailUrl r)]> ∅))))).

(** A row of the [videos] table, as [returning()] and [select] give it. *)
Record video_record := VideoRecord {
  rec_id : Z;
  rec_videoId : string;
  rec_channelId : Z;
  rec_title : string;
  rec_url : string;
  rec_thumbnailUrl : option string
}.

(** [new Map(pairs)] and repeated [map.set]: a later pair overrides an
    earlier one with the same key. *)
Definition set_all (pairs : list (string * Z)) (m : gmap string Z)
  : gmap string Z :=
  foldl (λ acc kv, <[kv.1 := kv.2]> acc) m pairs.

Section Server.
Context {W : Type}.
Variable fetch_playlistItems : string → M W playlist_page.
Variable fetch_videos : string → M W stats_page.
(** [db.select({id, videoId}).from(videos)] *)
Variable select_videos : M W (list (Z * string)).
(** [db.insert(videos).values(chunk).returning()] *)
Variable insert_videos : list video_row → M W (list video_record).

(** No [try] here: a rejected fetch rejects the whole call. *)
Definition getPlaylistVideos (fuel : nat) (apiKey playlistId : string) (w : W)
  : option ((exn + list video) * W) :=
  pages fetch_playlistItems fuel (playlistItems_url apiKey playlistId)
        None [] w.

Definition getVideoStatistics (apiKey : string) (videoIds : list string)
  : M W (list stat) :=
  try_catch
    (await data := fetch_videos (videos_url apiKey videoIds) in
     ret (match stats_items data with
          | Some items => to_stat <$> items
          | None => []
          end))
    (λ error, ret []).

Definition batchGetVideoStatistics (apiKey : string) (videoIds : list string)
  : M W (list stat) :=
  let batchSize := 50%nat in
  let batches :=
    getVideoStatistics apiKey
      <$> slices (length videoIds) batchSize 0 videoIds in
  await results := all batches in
  ret (concat results).

Definition batchInsertVideos (videosData : list video_row)
  : M W (gmap string Z) :=
  await existingVideos := select_videos in
  let existingVideoMap := set_all ((λ v, (v.2, v.1)) <$> existingVideos) ∅ in
  let newVideosData :=
    List.filter
      (λ video,
         negb (bool_decide (is_Some (existingVideoMap !! row_videoId video))))
      videosData in
  await insertedVideos := autochunk newVideosData insert_videos 0 in
  ret (set_all ((λ v, (rec_videoId v, rec_id v)) <$> insertedVideos)
               existingVideoMap).

Definition videosWithStats (username : string) (videos : list video)
    (stats : list stat) : list entry :=
  (λ video,
     let stat := find_stat stats (videoId video) in
     Entry (videoId video) username (videoTitle video)
           (watch_url (videoId video))
           (or_NA (viewCount <$> stat)) (or_NA (likeCount <$> stat))
           (or_NA (commentCount <$> stat)) (thumbnailUrl video))
    <$> videos.
(** What the handler of [GET /] sends: a plain sentence, or the report
    object that is serialised as the body. The status is 200 throughout. *)
Inductive response :=
| Text (body : string)
| Report (status : string) (totalVideos : nat) (elapsedTime : Z)
         (videos : list entry).

(** A row of the [channels] table. *)
Record channel_record := ChannelRecord {
  ch_id : Z;
  ch_channelName : string
}.

(** The elements of [statsData]: the counts are whatever the caller passes
    (the handler passes the strings of the upstream answer). *)
Record stats_data := StatsData {
  sd_videoId : string;
  sd_viewCount : prim;
  sd_likeCount : prim;
  sd_commentCount : prim
}.

(** The rows handed to [db.insert(videoStatistics).values(...)];
    [sr_videoId] is [videoIdMap.get(stat.videoId)], which may be undefined. *)
Record stats_row := StatsRow {
  sr_videoId : option Z;
  sr_viewCount : prim;
  sr_likeCount : prim;
  sr_commentCount : prim
}.

(** A statistics row is an object literal with four keys. *)
#[export] Instance stats_row_ToJs : ToJs stats_row := λ r,
  VObject (<["videoId" := match sr_videoId r with
                           | Some n => PNumber n
                           | None => PUndefined
                           end]>
          (<["viewCount" := sr_viewCount r]>
          (<["likeCount" := sr_likeCount r]>
          (<["commentCount" := sr_commentCount r]> ∅)))).

(** A row of the [video_statistics] table. *)
Record stats_record := StatsRecord {
  st_id : Z;
  st_videoId : Z;
  st_viewCount : Z;
  st_likeCount : Z;
  st_commentCount : Z
}.

(** [x || 0] *)
Definition or_zero (x : prim) : prim :=
  match x with
  | PUndefined | PNull => PNumber 0
  | PString s => if truthy s then x else PNumber 0
  | PNumber n => if n =? 0 then PNumber 0 else x
  end.

Variable fetch_channels : string → M W channels_page.
(** [Date.now()], read off the world. *)
Variable now : W → Z.
(** [db.select().from(channels).where(eq(channels.channelName, name)).get()] *)
Variable select_channel : string → M W (option channel_record).
(** [db.insert(channels).values({ channelName }).returning()] *)
Variable insert_channel : string → M W (list channel_record).
(** [db.insert(videoStatistics).values(chunk).returning()] *)
Variable insert_statistics : list stats_row → M W (list stats_record).

(** [data.items?.[0]?.contentDetails?.relatedPlaylists?.uploads || null] *)
Definition getUploadsChannelId (apiKey username : string)
  : M W (option string) :=
  try_catch
    (await data := fetch_channels (channels_url apiKey username) in
     let found :=
       match channel_items data with
       | Some (item :: _) =>
           match contentDetails item with
           | Some details =>
               match relatedPlaylists details with
               | Some playlists => uploads playlists
               | None => None
               end
           | None => None
           end
       | _ => None
       end in
     ret (if truthy_opt found then found else None))
    (λ error, ret None).

(** [existingChannel || (await insert.returning())[0]] *)
Definition insertChannel (channelName : string) : M W (option channel_record) :=
  await existingChannel := select_channel channelName in
  match existingChannel with
  | Some channel => ret (Some channel)
  | None =>
      await inserted := insert_channel channelName in
      ret (head inserted)
  end.

Definition batchInsertVideoStatistics (statsData : list stats_data)
    (videoIdMap : gmap string Z) : M W (list stats_record) :=
  let statsWithDbIds :=
    (λ stat, StatsRow (videoIdMap !! sd_videoId stat)
                      (or_zero (sd_viewCount stat))
                      (or_zero (sd_likeCount stat))
                      (or_zero (sd_commentCount stat))) <$> statsData in
  await insertedStats := autochunk statsWithDbIds insert_statistics 0 in
  ret insertedStats.

(** [app.get('/', ...)]; [query] is [c.req.query('url')]. *)
Definition handler (fuel : nat) (apiKey : string) (query : option string) (w : W)
  : option ((exn + response) * W) :=
  let startTime := now w in
  if negb (truthy_opt query) then
    Some (inr (Text "URL or username is missing"), w)
  else
    let username := Resolver.extractUsername (default "" query) in
    if negb (truthy_opt username) then
      Some (inr (Text "Invalid input (either a YouTube URL or a username is required)"), w)
    else
      let username := default "" username in
      match getUploadsChannelId apiKey username w with
      | (inl e, w1) => Some (inl e, w1)
      | (inr uploadsChannelId, w1) =>
          if negb (truthy_opt uploadsChannelId) then
            Some (inr (Text "Unable to fetch uploads channel ID."), w1)
          else
            match getPlaylistVideos fuel apiKey (default "" uploadsChannelId) w1 with
            | None => None
            | Some (inl e, w2) => Some (inl e, w2)
            | Some (inr videos, w2) =>
                if (length videos =? 0)%nat then
                  Some (inr (Text "No videos found in the playlist."), w2)
                else
                  Some
                    ((await stats :=
                        batchGetVideoStatistics apiKey (videoId <$> videos) in
                      await channel := insertChannel username in
                      match channel with
                      | None => throw (TypeError "channel is undefined")
                      | Some channel =>
                          let videosInsertData :=
                            (λ video,
                               VideoRow (videoId video) (ch_id channel)
                                        (videoTitle video)
                                        (watch_url (videoId video))
                                        (thumbnailUrl video)) <$> videos in
                          await videoIdMap := batchInsertVideos videosInsertData in
                          let statsInsertData :=
                            (λ stat,
                               StatsData (stat_videoId stat)
                                         (PString (viewCount stat))
                                         (PString (likeCount stat))
                                         (PString (commentCount stat)))
                              <$> stats in
                          await _ignored :=
                            batchInsertVideoStatistics statsInsertData videoIdMap in
                          let videosWithStats :=
                            videosWithStats username videos stats in
                          let endTime := now in
                          λ w3,
                            (inr (Report "200 OK" (length videosWithStats)
                                         (endTime w3 - startTime)
                                         videosWithStats), w3)
                      end) w2)
            end
      end.
End Server.

End Persisting.


(** ** Test doubles used to exercise the code on concrete inputs *)

Module Stub.

(** A write operation that answers with the batch itself. *)
Definition echo {T} : list T → M () (list T) := λ c, ret c.

(** A write operation that the backend always rejects. *)
Definition rejecting {T} : list T → M () (list T) :=
  λ _, throw (Error "D1_ERROR: backend unavailable").

(** An object with the 101 keys [k0] ... [k100]. *)
Definition wide_object : Js.value :=
  VObject (list_to_map ((λ i : nat, ("k" +:+ pretty i, PNull)) <$> seq 0 101)).

(** 101 scalars: one more than fits a single batch. *)
Definition scalars : list Js.value := replicate 101 (VString "a").

Import Api.

(** The high-resolution thumbnail of a video. *)
Definition thumbnail_of (videoId : string) : string :=
  "https://i.ytimg.com/vi/" +:+ videoId +:+ "/hqdefault.jpg".

(** [n] playlist items whose video ids are [tag0], [tag1], ... *)
Definition items_of (tag : string) (n : nat) : list playlist_item :=
  (λ i : nat,
     PlaylistItem ("title " +:+ tag +:+ pretty i) (tag +:+ pretty i)
                  (Some (thumbnail_of (tag +:+ pretty i))))
    <$> seq 0 n.

(** A playlist of three pages of 50, 50 and 10 items; each page names the
    token of the next one, the last page names none. *)
Definition three_pages : string → M () playlist_page := λ apiUrl,
  if String.eqb apiUrl (playlistItems_url "KEY" "UU") then
    ret (PlaylistPage (Some (items_of "a" 50)) (Some "P2"))
  else if String.eqb apiUrl (playlistItems_url "KEY" "UU" +:+ "&pageToken=P2") then
    ret (PlaylistPage (Some (items_of "b" 50)) (Some "P3"))
  else if String.eqb apiUrl (playlistItems_url "KEY" "UU" +:+ "&pageToken=P3") then
    ret (PlaylistPage (Some (items_of "c" 10)) None)
  else throw (Error "unexpected request").

(** A playlist whose first page arrives and whose second request fails. *)
Definition second_page_fails : string → M () playlist_page := λ apiUrl,
  if String.eqb apiUrl (playlistItems_url "KEY" "UU") then
    ret (PlaylistPage (Some (items_of "a" 2)) (Some "P2"))
  else throw (Error "fetch failed").

(** Statistics for 51 videos [a0] ... [a50]: the request for the first 50
    ids fails, the request for the last id is answered. *)
Definition first_group_fails : string → M () stats_page := λ apiUrl,
  if String.eqb apiUrl (videos_url "KEY" ["a50"]) then
    ret (StatsPage (Some [StatsItem "a50" "10" "2" "1"]))
  else throw (Error "fetch failed").

(** A fulfilled request that delivers an empty view count. *)
Definition empty_count : string → M () stats_page := λ _,
  ret (StatsPage (Some [StatsItem "a" "" "2" "1"])).

Import Persisting.

(** An in-memory [videos] table with the constraints of the schema that an
    insert of this program can violate: [thumbnail_url] is NOT NULL, so an
    insert with a row that has no thumbnail is rejected, and [video_id] is
    UNIQUE, so an insert that would store an id twice is rejected; a
    rejected insert stores nothing. *)
Definition table_select : M (list video_record) (list (Z * string)) :=
  λ t, (inr ((λ r, (rec_id r, rec_videoId r)) <$> t), t).

Definition table_insert (rows : list video_row)
  : M (list video_record) (list video_record) :=
  λ t,
    let ids := row_videoId <$> rows in
    if negb (forallb (λ r, bool_decide (is_Some (row_thumbnailUrl r))) rows)
    then
      (inl (Error "D1_ERROR: NOT NULL constraint failed: videos.thumbnail_url"),
       t)
    else if bool_decide (NoDup ids)
       && forallb (λ id, negb (bool_decide (id ∈ rec_videoId <$> t))) ids
    then
      let inserted :=
        imap (λ i r, VideoRecord (Z.of_nat (length t + i + 1)) (row_videoId r)
                       (row_channelId r) (row_title r) (row_url r)
                       (row_thumbnailUrl r)) rows in
      (inr inserted, t ++ inserted)
    else (inl (Error "D1_ERROR: UNIQUE constraint failed: videos.video_id"), t).

Definition row_of (videoId : string) : video_row :=
  VideoRow videoId 1 ("title " +:+ videoId) (watch_url videoId)
           (Some (thumbnail_of videoId)).

(** 21 rows, unknown to the store, the first two with the same video id. *)
Definition rows_with_duplicate : list video_row :=
  row_of "dup" :: row_of "dup" :: ((λ i : nat, row_of ("v" +:+ pretty i)) <$> seq 0 19).

(** 25 rows with distinct ids; [v0] ... [v4] are taken to be stored already. *)
Definition rows_25 : list video_row :=
  (λ i : nat, row_of ("v" +:+ pretty i)) <$> seq 0 25.

Definition stored_5 : list video_record :=
  imap (λ i r, VideoRecord (Z.of_nat (i + 1)) (row_videoId r) (row_channelId r)
                 (row_title r) (row_url r) (row_thumbnailUrl r))
       (take 5 rows_25).

(** A [video_statistics] table that stores every row it is given. *)
Definition stats_insert (rows : list stats_row)
  : M () (list stats_record) :=
  ret (imap (λ i r, StatsRecord (Z.of_nat (i + 1)) (default 0 (sr_videoId r))
                      0 0 0) rows).

(** Statistics for [n] videos [v0], [v1], ...: every tenth view count is
    missing, every like count is the empty string. *)
Definition stats_of (n : nat) : list stats_data :=
  (λ i : nat,
     StatsData ("v" +:+ pretty i)
               (if (i mod 10 =? 0)%nat then PNull else PString (pretty i))
               (PString "") (PNumber (Z.of_nat i))) <$> seq 0 n.

(** A channel lookup that finds the uploads playlist [UU]. *)
Definition channel_found : string → M () channels_page := λ _,
  ret (ChannelsPage
         (Some [ChannelItem
                  (Some (ContentDetails (Some (RelatedPlaylists (Some "UU")))))])).

(** A playlist of a single page with two videos. *)
Definition one_page : string → M () playlist_page := λ apiUrl,
  if String.eqb apiUrl (playlistItems_url "KEY" "UU") then
    ret (PlaylistPage (Some (items_of "a" 2)) None)
  else throw (Error "unexpected request").

(** An operation of a stateless double, run in a world it does not look at. *)
Definition ignoring {W A} (m : M () A) : M W A := λ w, ((m ()).1, w).

(** A [channels] table that knows no channel and stores what it is given. *)
Definition no_channel {W} : string → M W (option channel_record) :=
  λ _, ret None.

Definition channel_insert {W} : string → M W (list channel_record) :=
  λ channelName, ret [ChannelRecord 1 channelName].

(** The clock of the table world: one tick per stored video. *)
Definition table_clock (t : list video_record) : Z := Z.of_nat (length t).

(** An upstream that names a next page forever. *)
Definition endless : string → M () playlist_page := λ _,
  ret (PlaylistPage (Some (items_of "a" 1)) (Some "again")).

(** A statistics endpoint that is down. *)
Definition stats_down : string → M () stats_page :=
  λ _, throw (Error "fetch failed").

(** A [videos] table that rejects every insert. *)
Definition insert_down {W}
  : list video_row → M W (list video_record) :=
  λ _, throw (Error "D1_ERROR: backend unavailable").

End Stub.

(** ** The inputs the resolver accepts *)

Import Regex.

(** Every character of [s] satisfies [p]. *)
Fixpoint all_chars (p : ascii → bool) (s : string) : bool :=
  match s with
  | EmptyString => true
  | String c s' => p c && all_chars p s'
  end.

(** The character classes [[\\w@-]] and [[\\w-]] of [urlRegex]. *)
Definition handle_char (c : ascii) : bool := word c || one_of "@-" c.
Definition id_char (c : ascii) : bool := word c || Ascii.eqb c "-".

(** The four ways a channel URL can start. *)
Inductive url_prefix : string → Prop :=
| prefix_http : url_prefix "http://youtube.com/"
| prefix_https : url_prefix "https://youtube.com/"
| prefix_http_www : url_prefix "http://www.youtube.com/"
| prefix_https_www : url_prefix "https://www.youtube.com/".

(** The paths after [youtube.com/]: a channel id, a custom or user name
    with its prefix, or a bare name. *)
Inductive url_path : string → Prop :=
| path_channel body last :
    String.length body = 21%nat → all_chars id_char body = true →
    one_of "AQgw" last = true →
    url_path ("channel/UC" +:+ body +:+ String last "")
| path_custom name :
    name ≠ "" → all_chars handle_char name = true → url_path ("c/" +:+ name)
| path_user name :
    name ≠ "" → all_chars handle_char name = true → url_path ("user/" +:+ name)
| path_bare name :
    name ≠ "" → all_chars handle_char name = true → url_path name.

(** The part of [urlRegex] that reads the path. *)
Abbreviation PATH :=
  (Seq (Group 2
           (Alt (Seq (lit "channel/UC")
                (Seq (Times 21 (Class (λ c, word c || Ascii.eqb c "-")))
                     (Class (one_of "AQgw"))))
                (Seq (Opt (Group 3 (Alt (lit "c/") (lit "user/"))))
                     (Plus (Class (λ c, word c || one_of "@-" c))))))
        Eol).



(** * Properties *)

(** ** The chunk planner *)

Section AutochunkFacts.
Context {T U St : Type} `{ToJs T}.
Implicit Types (items : list T) (p : planner T) (cb : list T → M St (list U)).

Lemma itemParameters_nonneg (item : T) : 0 ≤ itemParameters item.
Proof.
  unfold itemParameters, isPlainObject, keys_length.
  destruct (to_js item); lia.
Qed.

(** The planning loop only ever moves items from the input to the end of
    the current chunk, and whole chunks to the end of [chunks]. *)
Lemma plan_loop_concat other items p p' :
  plan_loop other items p = inr p' →
  concat (chunks p') ++ chunk p' = concat (chunks p) ++ chunk p ++ items.
Proof.
  revert p. induction items as [|item rest IH]; intros p Hp; simpl in Hp.
  - injection Hp as <-. by rewrite app_nil_r.
  - destruct (D1_MAX_PARAMETERS <? itemParameters item); [discriminate|].
    destruct (D1_MAX_PARAMETERS <? _) in Hp.
    + rewrite (IH _ Hp). simpl. rewrite concat_app. simpl.
      by rewrite app_nil_r, <- !app_assoc.
    + rewrite (IH _ Hp). simpl. by rewrite <- !app_assoc.
Qed.

Lemma plan_concat items other cs :
  plan items other = inr cs → concat cs = items.
Proof.
  unfold plan. destruct (D1_MAX_PARAMETERS <? other); [discriminate|].
  destruct (plan_loop other items _) as [e|p] eqn:Hp; [discriminate|].
  intros [= <-]. apply plan_loop_concat in Hp. simpl in Hp.
  destruct (chunk p) as [|x c] eqn:Hc; simpl.
  - by rewrite app_nil_r in Hp.
  - rewrite concat_app. simpl. by rewrite app_nil_r.
Qed.

Lemma plan_nil other :
  other ≤ D1_MAX_PARAMETERS → plan (T:=T) [] other = inr [].
Proof.
  intros Ho. unfold plan.
  destruct (D1_MAX_PARAMETERS <? other) eqn:E; [apply Z.ltb_lt in E; lia|done].
Qed.

Lemma plan_precheck items other :
  D1_MAX_PARAMETERS < other → plan items other = inl PrecheckFailed.
Proof.
  intros Ho. unfold plan. apply Z.ltb_lt in Ho. by rewrite Ho.
Qed.

(** The first item that is too large stops the loop. *)
Lemma plan_loop_too_large other pre item post p :
  Forall (λ x, itemParameters x ≤ D1_MAX_PARAMETERS) pre →
  D1_MAX_PARAMETERS < itemParameters item →
  plan_loop other (pre ++ item :: post) p
    = inl (ItemTooLarge (itemParameters item)).
Proof.
  intros Hpre Hitem. revert p.
  induction Hpre as [|x pre Hx _ IH]; intros p; simpl.
  - apply Z.ltb_lt in Hitem. by rewrite Hitem.
  - destruct (Z.ltb_spec D1_MAX_PARAMETERS (itemParameters x)); [lia|].
    destruct (Z.ltb_spec D1_MAX_PARAMETERS
                (chunkParameters p + itemParameters x + other)); apply IH.
Qed.

(** Any list with a too-large item splits at the first such item. *)
Lemma first_too_large items :
  Exists (λ x, D1_MAX_PARAMETERS < itemParameters x) items →
  ∃ pre item post,
    items = pre ++ item :: post
    ∧ Forall (λ x, itemParameters x ≤ D1_MAX_PARAMETERS) pre
    ∧ D1_MAX_PARAMETERS < itemParameters item.
Proof.
  induction items as [|x l IH]; intros Hex; [by inversion Hex|].
  destruct (decide (D1_MAX_PARAMETERS < itemParameters x)) as [Hx|Hx].
  - by exists [], x, l.
  - inversion Hex as [|? ? Hl]; subst; [done|].
    destruct (IH Hl) as (pre & item & post & -> & Hpre & Hitem).
    exists (x :: pre), item, post. split_and!; [done| |done].
    constructor; [lia|done].
Qed.

(** The loop succeeds when no item is too large. *)
Lemma plan_loop_total other items p :
  Forall (λ x, itemParameters x ≤ D1_MAX_PARAMETERS) items →
  ∃ p', plan_loop other items p = inr p'.
Proof.
  intros Hall. revert p.
  induction Hall as [|x l Hx _ IH]; intros p; simpl; [by eexists|].
  destruct (Z.ltb_spec D1_MAX_PARAMETERS (itemParameters x)); [lia|].
  destruct (Z.ltb_spec D1_MAX_PARAMETERS
              (chunkParameters p + itemParameters x + other)); apply IH.
Qed.

(** What the execution loop hands to a spied callback: the chunks in
    order, up to and including the first one the callback rejects. *)
Lemma run_chunks_spy cb todo results log s r log' s' :
  run_chunks (spy cb) todo results (log, s) = (r, (log', s')) →
  ∃ passed,
    log' = log ++ passed ∧ passed `prefix_of` todo
    ∧ (∀ res, r = inr res → passed = todo).
Proof.
  revert results log s. induction todo as [|c todo IH]; intros results log s.
  - intros [= <- <- <-]. exists []. by rewrite app_nil_r.
  - simpl. unfold bind, spy at 1.
    destruct (cb c s) as [[e|res] s1] eqn:Hcb.
    + intros [= <- <- <-]. exists [c]. split_and!; [done| |done].
      by exists todo.
    + intros Hrun. apply IH in Hrun as (passed & -> & Hpre & Hall).
      exists (c :: passed). rewrite <- app_assoc. split_and!; [done| |].
      * by apply prefix_cons.
      * intros res' Hr. by rewrite (Hall res' Hr).
Qed.

(** The spy does not disturb the callback. *)
Lemma run_chunks_spy_erase cb todo results log s :
  run_chunks cb todo results s
    = let '(r, (_, s')) := run_chunks (spy cb) todo results (log, s) in (r, s').
Proof.
  revert results log s. induction todo as [|c todo IH]; intros results log s.
  - done.
  - simpl. unfold bind, spy at 1.
    destruct (cb c s) as [[e|res] s1] eqn:Hcb; [done|].
    apply IH.
Qed.

Lemma Forall2_concat {A B} (R : A → B → Prop) (ls : list (list A))
    (ks : list (list B)) :
  Forall2 (Forall2 R) ls ks → Forall2 R (concat ls) (concat ks).
Proof.
  induction 1 as [|l k ls ks Hlk _ IH]; simpl; [constructor|].
  by apply Forall2_app.
Qed.

(** With a callback that answers item by item, the execution loop
    answers chunk by chunk. *)
Lemma run_chunks_results (R : T → U → Prop) cb todo results s res s' :
  (∀ c st r st', cb c st = (inr r, st') → Forall2 R c r) →
  run_chunks cb todo results s = (inr res, s') →
  ∃ rs, res = results ++ rs ∧ Forall2 (Forall2 R) todo rs.
Proof.
  intros Hcb. revert results s.
  induction todo as [|c todo IH]; intros results s.
  - intros [= <- <-]. exists []. by rewrite app_nil_r.
  - simpl. unfold bind.
    destruct (cb c s) as [[e|r] s1] eqn:Hc; [discriminate|].
    intros Hrun. apply IH in Hrun as (rs & -> & Hrs).
    exists (r :: rs). rewrite <- app_assoc. split; [done|].
    constructor; [by eapply Hcb|done].
Qed.

(** The execution loop fulfils when the callback fulfils on every chunk. *)
Lemma run_chunks_total cb todo results s :
  (∀ c st, c ∈ todo → ∃ r st', cb c st = (inr r, st')) →
  ∃ res s', run_chunks cb todo results s = (inr res, s').
Proof.
  revert results s. induction todo as [|c todo IH]; intros results s Hcb.
  - by eexists _, _.
  - simpl. unfold bind.
    destruct (Hcb c s) as (r & s1 & ->); [by left|].
    apply IH. intros c' st Hc'. apply Hcb. by right.
Qed.

End AutochunkFacts.

(** The two errors of the planner are told apart by their messages. *)
Lemma ItemTooLarge_not_PrecheckFailed (c : Z) : ItemTooLarge c ≠ PrecheckFailed.
Proof. unfold ItemTooLarge, PrecheckFailed. cbn. discriminate. Qed.

Section AutochunkClaims.
Context {T U St : Type} `{ToJs T}.
Implicit Types (items : list T) (cb : list T → M St (list U)).

(** When every item fits next to the reserved parameters, the planner keeps
    its promise: no empty batch, no batch above the ceiling. *)
Lemma batch_cost_snoc (c : list T) (x : T) :
  batch_cost (c ++ [x]) = batch_cost c + itemParameters x.
Proof. induction c as [|y c IH]; simpl; [lia|]. rewrite IH. lia. Qed.

Lemma plan_loop_within_ceiling other items (p p' : planner T) :
  Forall (λ x, itemParameters x + other ≤ D1_MAX_PARAMETERS) items →
  Forall (λ c, c ≠ [] ∧ batch_cost c + other ≤ D1_MAX_PARAMETERS) (chunks p) →
  chunkParameters p = batch_cost (chunk p) →
  (chunk p ≠ [] → batch_cost (chunk p) + other ≤ D1_MAX_PARAMETERS) →
  plan_loop other items p = inr p' →
  Forall (λ c, c ≠ [] ∧ batch_cost c + other ≤ D1_MAX_PARAMETERS) (chunks p')
  ∧ (chunk p' ≠ [] → batch_cost (chunk p') + other ≤ D1_MAX_PARAMETERS).
Proof.
  intros Hitems. revert p.
  induction Hitems as [|x l Hx _ IH]; intros p Hchunks Hcost Hlast Hp;
    simpl in Hp.
  - by injection Hp as <-.
  - destruct (Z.ltb_spec D1_MAX_PARAMETERS (itemParameters x));
      [discriminate|].
    destruct (Z.ltb_spec D1_MAX_PARAMETERS
                (chunkParameters p + itemParameters x + other)) as [Hover|Hfits];
      apply IH in Hp; try done; simpl.
    + apply Forall_app. split; [done|].
      assert (chunk p ≠ []) as Hne.
      { intros Hnil. rewrite Hnil in Hcost. simpl in Hcost. lia. }
      repeat constructor; [done|by apply Hlast].
    + lia.
    + intros _. lia.
    + rewrite batch_cost_snoc. lia.
    + intros _. rewrite batch_cost_snoc. lia.
Qed.

Lemma plan_within_ceiling other items cs :
  Forall (λ x, itemParameters x + other ≤ D1_MAX_PARAMETERS) items →
  plan items other = inr cs →
  Forall (λ c, c ≠ [] ∧ batch_cost c + other ≤ D1_MAX_PARAMETERS) cs.
Proof.
  intros Hitems. unfold plan.
  destruct (D1_MAX_PARAMETERS <? other); [discriminate|].
  destruct (plan_loop other items _) as [e|p] eqn:Hp; [discriminate|].
  intros [= <-].
  apply plan_loop_within_ceiling in Hp as [Hcs Hlast]; [|done..].
  destruct (chunk p) as [|y c] eqn:Hc; simpl; [done|].
  apply Forall_app. split; [done|]. repeat constructor; [done|].
  by apply Hlast.
Qed.

(** C2. When the planner succeeds with a callback that answers every batch
    item by item ([R] relates an item to its result), the flattened result
    answers the input item by item: same length, same order. This holds for
    the empty input as well. *)
Theorem autochunk_results_in_order (R : T → U → Prop) items cb other s res s' :
  (∀ c st r st', cb c st = (inr r, st') → Forall2 R c r) →
  autochunk items cb other s = (inr res, s') →
  Forall2 R items res ∧ length res = length items.
Proof.
  intros Hcb. unfold autochunk.
  destruct (plan items other) as [e|cs] eqn:Hplan; [discriminate|].
  unfold bind. destruct (run_chunks cb cs [] s) as [[e|rs] s1] eqn:Hrun;
    [discriminate|].
  intros [= <- <-].
  eapply run_chunks_results in Hrun as (rs' & -> & Hrs); [|done].
  simpl. apply Forall2_concat in Hrs.
  rewrite (plan_concat _ _ _ Hplan) in Hrs.
  split; [done|]. symmetry. by eapply Forall2_length.
Qed.

(** C3, as amended. With a reserved count within the ceiling, an input
    holding an item whose own cost exceeds 100 makes the planner throw the
    [ItemTooLarge] error built from the cost of the first such item (the
    message spells that cost out), before the callback sees any batch: the
    spy's log and the world are untouched. *)
Theorem autochunk_item_too_large items cb other s :
  other ≤ D1_MAX_PARAMETERS →
  Exists (λ x, D1_MAX_PARAMETERS < itemParameters x) items →
  ∃ pre item post,
    items = pre ++ item :: post
    ∧ Forall (λ x, itemParameters x ≤ D1_MAX_PARAMETERS) pre
    ∧ D1_MAX_PARAMETERS < itemParameters item
    ∧ autochunk items (spy cb) other ([], s)
      = (inl (ItemTooLarge (itemParameters item)), ([], s))
    ∧ ItemTooLarge (itemParameters item)
      = Error ("Item has too many parameters ("
                 +:+ pretty (itemParameters item) +:+ ")").
Proof.
  intros Hother Hex.
  destruct (first_too_large items Hex) as (pre & item & post & -> & Hpre & Hitem).
  exists pre, item, post. split_and!; try done.
  unfold autochunk, plan.
  destruct (Z.ltb_spec D1_MAX_PARAMETERS other); [lia|].
  by rewrite plan_loop_too_large.
Qed.

(** C4. A reserved count above the ceiling makes the planner throw
    [PrecheckFailed] whatever the items are (even items that are themselves
    too large are never looked at), and the callback is not invoked: the
    spy's log and the world are untouched. *)
Theorem autochunk_precheck_failed items cb other s :
  D1_MAX_PARAMETERS < other →
  plan items other = inl PrecheckFailed
  ∧ autochunk items (spy cb) other ([], s) = (inl PrecheckFailed, ([], s))
  ∧ ∀ c, PrecheckFailed ≠ ItemTooLarge c.
Proof.
  intros Hother. pose proof (plan_precheck items other Hother) as Hplan.
  split_and!; [done| |].
  - unfold autochunk. by rewrite Hplan.
  - intros c Heq. by apply (ItemTooLarge_not_PrecheckFailed c).
Qed.

(** What a spied callback has received when the planner is done: a prefix
    of the input, and all of it when the planner returns normally. *)
Lemma autochunk_spy_passed items cb other s r log s' :
  autochunk items (spy cb) other ([], s) = (r, (log, s')) →
  concat log `prefix_of` items ∧ (∀ res, r = inr res → concat log = items).
Proof.
  unfold autochunk.
  destruct (plan items other) as [e|cs] eqn:Hplan.
  - intros [= <- <- <-]. split; [apply prefix_nil|done].
  - unfold bind.
    destruct (run_chunks (spy cb) cs [] ([], s)) as [r1 [log1 s1]] eqn:Hrun.
    apply run_chunks_spy in Hrun as (passed & -> & [rest ->] & Hall).
    rewrite <- (plan_concat _ _ _ Hplan), concat_app.
    destruct r1 as [e|rs]; intros [= <- <- <-].
    + split; [by eexists|done].
    + split; [by eexists|]. intros _ _.
      rewrite <- concat_app. f_equal. by eapply Hall.
Qed.

(** C10, as amended. When the planner returns normally (it reached the
    execution phase and no invocation of the callback failed), the batches
    the callback received, concatenated in invocation order, are exactly
    the input; an empty input means no invocation and an empty result. *)
Theorem autochunk_batches_concat items cb other s res log s' :
  autochunk items (spy cb) other ([], s) = (inr res, (log, s')) →
  concat log = items ∧ (items = [] → log = [] ∧ res = []).
Proof.
  unfold autochunk.
  destruct (plan items other) as [e|cs] eqn:Hplan; [discriminate|].
  unfold bind.
  destruct (run_chunks (spy cb) cs [] ([], s)) as [[e|rs] [log1 s1]] eqn:Hrun;
    [discriminate|].
  intros [= <- <- <-].
  pose proof Hrun as Hspy.
  apply run_chunks_spy in Hspy as (passed & -> & _ & Hall).
  rewrite (Hall rs eq_refl). simpl.
  split; [by eapply plan_concat|].
  intros ->. unfold plan in Hplan.
  destruct (D1_MAX_PARAMETERS <? other); [discriminate|].
  simpl in Hplan. injection Hplan as <-.
  simpl in Hrun. by injection Hrun as <-.
Qed.

(** The planner does return when it reaches the execution phase and the
    callback fulfils on every batch. *)
Lemma autochunk_total items cb other s :
  reaches_execution items other →
  (∀ c st, ∃ r st', cb c st = (inr r, st')) →
  ∃ res s', autochunk items cb other s = (inr res, s').
Proof.
  intros [cs Hplan] Hcb. unfold autochunk. rewrite Hplan. unfold bind.
  destruct (run_chunks_total cb cs [] s) as (rs & s1 & ->); [by intros|].
  by eexists _, _.
Qed.

End AutochunkClaims.

(** *** The planner on concrete inputs *)

(** C1: the code falls short of the claim. With one scalar item and a
    reserved count of 100 the planner first closes the still empty chunk and
    then opens a chunk whose cost, together with the reserved count, is 101:
    the callback receives an empty batch and a batch above the ceiling. *)
Theorem autochunk_reserved_overflow :
  plan [VString "a"] 100 = inr [[]; [VString "a"]]
  ∧ (autochunk [VString "a"] (spy Stub.echo) 100 ([], ())).2.1
    = [[]; [VString "a"]]
  ∧ batch_cost [VString "a"] + 100 = 101
  ∧ ¬ Forall (λ c, c ≠ [] ∧ batch_cost c + 100 ≤ D1_MAX_PARAMETERS)
        (autochunk [VString "a"] (spy Stub.echo) 100 ([], ())).2.1.
Proof.
  split_and!; [done..|].
  intros Hall. apply Forall_cons in Hall as [[Hne _] _]. by apply Hne.
Qed.

Lemma autochunk_results_in_order_witness :
  Forall2 eq Stub.scalars Stub.scalars
  ∧ length Stub.scalars = length Stub.scalars.
Proof.
  apply (autochunk_results_in_order eq Stub.scalars Stub.echo 0 () Stub.scalars ()).
  - intros c st r st' Hcb. injection Hcb as <- _. by apply list_eq_Forall2.
  - vm_compute. reflexivity.
Defined.

(** C3 as stated fails when the reserved count is itself above the ceiling:
    the pre-check throws first, and its error is not [ItemTooLarge]. *)
Lemma item_too_large_shadowed_by_precheck :
  D1_MAX_PARAMETERS < itemParameters Stub.wide_object
  ∧ (autochunk [Stub.wide_object] (spy Stub.echo) 101 ([], ())).1
    = inl PrecheckFailed
  ∧ ∀ c, (autochunk [Stub.wide_object] (spy Stub.echo) 101 ([], ())).1
         ≠ inl (ItemTooLarge c).
Proof.
  split_and!; [done..|].
  intros c Heq. injection Heq as Heq. by apply (ItemTooLarge_not_PrecheckFailed c).
Qed.

Lemma autochunk_item_too_large_witness :
  ∃ pre item post,
    [VString "a"; Stub.wide_object; VNumber 7] = pre ++ item :: post
    ∧ Forall (λ x, itemParameters x ≤ D1_MAX_PARAMETERS) pre
    ∧ D1_MAX_PARAMETERS < itemParameters item
    ∧ autochunk [VString "a"; Stub.wide_object; VNumber 7] (spy Stub.echo) 0 ([], ())
      = (inl (ItemTooLarge (itemParameters item)), ([], ()))
    ∧ ItemTooLarge (itemParameters item)
      = Error ("Item has too many parameters ("
                 +:+ pretty (itemParameters item) +:+ ")").
Proof.
  apply (autochunk_item_too_large
           [VString "a"; Stub.wide_object; VNumber 7] Stub.echo 0 ()).
  - vm_compute. discriminate.
  - apply Exists_cons_tl, Exists_cons_hd. vm_compute. reflexivity.
Defined.

Lemma autochunk_precheck_failed_witness :
  plan [Stub.wide_object; VString "a"] 101 = inl PrecheckFailed
  ∧ autochunk [Stub.wide_object; VString "a"] (spy Stub.echo) 101 ([], ())
    = (inl PrecheckFailed, ([], ()))
  ∧ ∀ c, PrecheckFailed ≠ ItemTooLarge c.
Proof.
  apply (autochunk_precheck_failed [Stub.wide_object; VString "a"] Stub.echo 101 ()).
  vm_compute. reflexivity.
Defined.

(** C10 as stated fails when the callback rejects a batch that is not the
    last one: planning 101 scalars succeeds with two batches, the backend
    rejects the first, and the second is never handed over. *)
Lemma batches_cut_short_by_rejection :
  reaches_execution Stub.scalars 0
  ∧ (autochunk Stub.scalars (spy Stub.rejecting) 0 ([], ())).2.1
    = [replicate 100 (VString "a")]
  ∧ concat (autochunk Stub.scalars (spy Stub.rejecting) 0 ([], ())).2.1
    ≠ Stub.scalars.
Proof.
  split_and!.
  - eexists. vm_compute. reflexivity.
  - vm_compute. reflexivity.
  - intros Heq. apply (f_equal length) in Heq. vm_compute in Heq. discriminate.
Qed.

Lemma autochunk_batches_concat_witness :
  concat [replicate 100 (VString "a"); [VString "a"]] = Stub.scalars
  ∧ (Stub.scalars = []
     → [replicate 100 (VString "a"); [VString "a"]] = [] ∧ Stub.scalars = []).
Proof.
  apply (autochunk_batches_concat Stub.scalars Stub.echo 0 () Stub.scalars
           [replicate 100 (VString "a"); [VString "a"]] ()).
  vm_compute. reflexivity.
Defined.

(** ** The upstream paginator *)

Lemma truthy_nonempty (s : string) : s ≠ "" → truthy s = true.
Proof. by destruct s. Qed.

Section PaginatorClaims.
Import Api.
Context {W : Type} (fetch : string → M W playlist_page).

(** A failing page request ends the loop with the thrown value, whatever
    had been accumulated. *)
Lemma pages_fails_after url token w served w' :
  fails_after fetch url token w served w' →
  ∀ fuel videos, (length served < fuel)%nat →
    ∃ e, pages fetch fuel url token videos w = Some (inl e, w').
Proof.
  induction 1 as [token w e w' Hf|token w next w' Hf
                 |token w items t w1 served w' Hf Ht _ IH];
    intros [|fuel] videos Hfuel; simpl in Hfuel; try lia; simpl.
  - rewrite Hf. by eexists.
  - rewrite Hf. simpl. by eexists.
  - rewrite Hf. simpl. rewrite Ht. apply IH. lia.
Qed.

(** C6, as amended (src/index.ts). Whenever a page request fails, at the
    first page or after any number of fetched pages, [getPlaylistVideos]
    fulfils with the empty list: the error is swallowed and the items of
    the pages fetched before are dropped. *)
Theorem getPlaylistVideos_failure_returns_empty
    apiKey playlistId w served w' fuel :
  fails_after fetch (playlistItems_url apiKey playlistId) None w served w' →
  (length served < fuel)%nat →
  IndexTs.getPlaylistVideos fetch fuel apiKey playlistId w = Some (inr [], w').
Proof.
  intros Hfail Hfuel. unfold IndexTs.getPlaylistVideos.
  by destruct (pages_fails_after _ _ _ _ _ Hfail fuel [] Hfuel) as [e ->].
Qed.

(** The persisting server has no handler around the loop: there the same
    failure rejects the call. *)
Lemma getPlaylistVideos_failure_propagates apiKey playlistId w served w' fuel :
  fails_after fetch (playlistItems_url apiKey playlistId) None w served w' →
  (length served < fuel)%nat →
  ∃ e, Persisting.getPlaylistVideos fetch fuel apiKey playlistId w
       = Some (inl e, w').
Proof.
  intros Hfail Hfuel. unfold Persisting.getPlaylistVideos.
  by apply pages_fails_after with served.
Qed.

Lemma pages_S fuel url token videos w :
  pages fetch (S fuel) url token videos w
  = match fetch (page_url url token) w with
    | (inl e, w') => Some (inl e, w')
    | (inr data, w') =>
        match page_items data with
        | None => Some (inl (TypeError "data.items is undefined"), w')
        | Some items =>
            match nextPageToken data with
            | Some t =>
                if truthy t
                then pages fetch fuel url (Some t)
                       (videos ++ (to_video <$> items)) w'
                else Some (inr (videos ++ (to_video <$> items)), w')
            | None => Some (inr (videos ++ (to_video <$> items)), w')
            end
        end
    end.
Proof. reflexivity. Qed.

Lemma page_url_token url t :
  truthy t = true → page_url url (Some t) = url +:+ "&pageToken=" +:+ t.
Proof. intros Ht. unfold page_url. by rewrite Ht. Qed.

Lemma pages_three url (w0 w1 w2 w3 : W) l1 l2 l3 t2 t3 fuel :
  fetch url w0 = (inr (PlaylistPage (Some l1) (Some t2)), w1) →
  fetch (url +:+ "&pageToken=" +:+ t2) w1
    = (inr (PlaylistPage (Some l2) (Some t3)), w2) →
  fetch (url +:+ "&pageToken=" +:+ t3) w2
    = (inr (PlaylistPage (Some l3) None), w3) →
  truthy t2 = true → truthy t3 = true →
  (3 ≤ fuel)%nat →
  pages fetch fuel url None [] w0
    = Some (inr (to_video <$> l1 ++ l2 ++ l3), w3).
Proof.
  intros H1 H2 H3 Ht2 Ht3 Hfuel.
  destruct fuel as [|[|[|fuel]]]; try lia.
  rewrite pages_S. change (page_url url None) with url.
  rewrite H1. cbn [page_items nextPageToken]. rewrite Ht2.
  rewrite pages_S, (page_url_token _ _ Ht2), H2.
  cbn [page_items nextPageToken]. rewrite Ht3.
  rewrite pages_S, (page_url_token _ _ Ht3), H3.
  cbn [page_items nextPageToken].
  by rewrite !fmap_app, app_assoc.
Qed.

(** C8. Three pages of 50, 50 and 10 items, each request made with the
    token the page before supplied and the last page supplying none: both
    servers fulfil with the 110 videos in page order, given fuel for three
    iterations. *)
Theorem getPlaylistVideos_three_pages
    apiKey playlistId (w0 w1 w2 w3 : W) l1 l2 l3 t2 t3 fuel :
  let url := playlistItems_url apiKey playlistId in
  fetch url w0 = (inr (PlaylistPage (Some l1) (Some t2)), w1) →
  fetch (url +:+ "&pageToken=" +:+ t2) w1
    = (inr (PlaylistPage (Some l2) (Some t3)), w2) →
  fetch (url +:+ "&pageToken=" +:+ t3) w2
    = (inr (PlaylistPage (Some l3) None), w3) →
  t2 ≠ "" → t3 ≠ "" →
  length l1 = 50%nat → length l2 = 50%nat → length l3 = 10%nat →
  (3 ≤ fuel)%nat →
  IndexTs.getPlaylistVideos fetch fuel apiKey playlistId w0
    = Some (inr (to_video <$> l1 ++ l2 ++ l3), w3)
  ∧ Persisting.getPlaylistVideos fetch fuel apiKey playlistId w0
    = Some (inr (to_video <$> l1 ++ l2 ++ l3), w3)
  ∧ length (to_video <$> l1 ++ l2 ++ l3) = 110%nat.
Proof.
  intros url H1 H2 H3 Ht2 Ht3 Hl1 Hl2 Hl3 Hfuel.
  apply truthy_nonempty in Ht2, Ht3.
  pose proof (pages_three url _ _ _ _ _ _ _ _ _ fuel H1 H2 H3 Ht2 Ht3 Hfuel)
    as Hpages.
  unfold IndexTs.getPlaylistVideos, Persisting.getPlaylistVideos.
  fold url. rewrite Hpages. split_and!; [done..|].
  rewrite length_fmap, !length_app. lia.
Qed.

End PaginatorClaims.

(** C6 as stated fails in both servers: after one fetched page of two items
    the second request fails; src/index.ts answers with the empty list, not
    with the two accumulated items, and the persisting server rejects. *)
Lemma accumulated_pages_are_dropped :
  Api.fails_after Stub.second_page_fails (Api.playlistItems_url "KEY" "UU")
    None () [Stub.items_of "a" 2] ()
  ∧ IndexTs.getPlaylistVideos Stub.second_page_fails 5 "KEY" "UU" ()
    = Some (inr [], ())
  ∧ Api.to_video <$> concat [Stub.items_of "a" 2] ≠ []
  ∧ Persisting.getPlaylistVideos Stub.second_page_fails 5 "KEY" "UU" ()
    = Some (inl (Error "fetch failed"), ()).
Proof.
  split_and!.
  - eapply Api.fails_later with (t := "P2"); [by vm_compute|done|].
    eapply Api.fails_rejected. by vm_compute.
  - by vm_compute.
  - by vm_compute.
  - by vm_compute.
Qed.

Lemma getPlaylistVideos_failure_returns_empty_witness :
  IndexTs.getPlaylistVideos Stub.second_page_fails 5 "KEY" "UU" ()
  = Some (inr [], ()).
Proof.
  apply (getPlaylistVideos_failure_returns_empty Stub.second_page_fails
           "KEY" "UU" () [Stub.items_of "a" 2] () 5).
  - eapply Api.fails_later with (t := "P2"); [vm_compute; reflexivity|reflexivity|].
    eapply Api.fails_rejected. vm_compute. reflexivity.
  - simpl. lia.
Defined.

Lemma getPlaylistVideos_three_pages_witness :
  IndexTs.getPlaylistVideos Stub.three_pages 3 "KEY" "UU" ()
    = Some (inr (Api.to_video <$> Stub.items_of "a" 50 ++ Stub.items_of "b" 50
                                   ++ Stub.items_of "c" 10), ())
  ∧ Persisting.getPlaylistVideos Stub.three_pages 3 "KEY" "UU" ()
    = Some (inr (Api.to_video <$> Stub.items_of "a" 50 ++ Stub.items_of "b" 50
                                   ++ Stub.items_of "c" 10), ())
  ∧ length (Api.to_video <$> Stub.items_of "a" 50 ++ Stub.items_of "b" 50
                              ++ Stub.items_of "c" 10) = 110%nat.
Proof.
  apply (getPlaylistVideos_three_pages Stub.three_pages "KEY" "UU" () () () ()
           (Stub.items_of "a" 50) (Stub.items_of "b" 50) (Stub.items_of "c" 10)
           "P2" "P3" 3).
  - vm_compute. reflexivity.
  - vm_compute. reflexivity.
  - vm_compute. reflexivity.
  - discriminate.
  - discriminate.
  - vm_compute. reflexivity.
  - vm_compute. reflexivity.
  - vm_compute. reflexivity.
  - lia.
Defined.

(** ** The identity resolver *)

(** C5: the code falls short of the claim on the custom-URL form. A handle
    is returned as it is and a foreign URL gives no match, but for
    [https://youtube.com/c/Bar] the second capturing group spans the whole
    path, so the prefix [c/] comes back with the name. *)
Theorem extractUsername_examples :
  Resolver.extractUsername "@foo" = Some "@foo"
  ∧ Resolver.extractUsername "https://youtube.com/c/Bar" = Some "c/Bar"
  ∧ Resolver.extractUsername "https://youtube.com/c/Bar" ≠ Some "Bar"
  ∧ Resolver.extractUsername "https://example.com/x" = None.
Proof. split_and!; by vm_compute. Qed.

(** A handle is returned unchanged whatever follows the marker. *)
Lemma extractUsername_handle (s : string) :
  Resolver.extractUsername (String "@" s) = Some (String "@" s).
Proof.
  unfold Resolver.extractUsername, Resolver.startsWith. simpl. by destruct s.
Qed.

(** The same happens for the other prefixed forms; only the bare form
    yields the name alone. *)
Lemma extractUsername_prefixed :
  Resolver.extractUsername "https://www.youtube.com/user/Bar" = Some "user/Bar"
  ∧ Resolver.extractUsername "http://youtube.com/channel/UCabcdefghijklmnopqrstuA"
    = Some "channel/UCabcdefghijklmnopqrstuA"
  ∧ Resolver.extractUsername "https://youtube.com/@foo-bar" = Some "@foo-bar"
  ∧ Resolver.extractUsername "https://youtube.com/Bar" = Some "Bar".
Proof. split_and!; by vm_compute. Qed.

(** ** Statistics and the report *)

Section StatisticsClaims.
Import Api.
Context {W : Type} (fetch : string → M W stats_page).

Lemma find_stat_Some stats id s :
  find_stat stats id = Some s → s ∈ stats ∧ stat_videoId s = id.
Proof.
  unfold find_stat. intros Hfind. apply find_some in Hfind as [Hin Heq].
  split; [by apply list_elem_of_In|by apply String.eqb_eq].
Qed.


(** The slicing loop has fuel enough: its groups, in order, make up the
    list of ids. *)
Lemma slices_drop fuel i (videoIds : list string) :
  (length videoIds - i ≤ fuel)%nat →
  concat (slices fuel 50 i videoIds) = drop i videoIds.
Proof.
  revert i. induction fuel as [|fuel IH]; intros i Hfuel; simpl.
  - symmetry. apply drop_ge. lia.
  - destruct (Nat.ltb_spec i (length videoIds)) as [Hlt|Hge].
    + simpl. rewrite IH by lia.
      rewrite <- drop_drop. apply take_drop.
    + symmetry. by apply drop_ge.
Qed.

Lemma slices_concat (videoIds : list string) :
  concat (slices (length videoIds) 50 0 videoIds) = videoIds.
Proof. rewrite slices_drop by lia. apply drop_0. Qed.

(** src/index.ts: a group request answers every requested id, in order,
    with the delivered record or with the sentinel record. *)
Lemma getVideoStatistics_one_per_id apiKey videoIds w :
  ∃ stats w',
    IndexTs.getVideoStatistics fetch apiKey videoIds w = (inr stats, w')
    ∧ stat_videoId <$> stats = videoIds
    ∧ Forall (λ s, returned fetch s ∨ s = not_available (stat_videoId s)) stats.
Proof.
  assert (Hna : ∀ ids : list string,
             stat_videoId <$> (not_available <$> ids) = ids
             ∧ Forall (λ s, returned fetch s ∨ s = not_available (stat_videoId s))
                 (not_available <$> ids)).
  { intros ids. split.
    - rewrite <- list_fmap_compose. by rewrite <- (list_fmap_id ids) at 2.
    - apply Forall_fmap, Forall_forall. intros id _. by right. }
  unfold IndexTs.getVideoStatistics, try_catch, bind.
  destruct (fetch (videos_url apiKey videoIds) w)
    as [[e|[[[|item items]|]]] w'] eqn:Hf;
    try (eexists _, _; split; [done|apply Hna]).
  eexists _, _. split; [reflexivity|].
  set (stats := to_stat <$> item :: items). split.
  - rewrite <- list_fmap_compose. rewrite <- (list_fmap_id videoIds) at 2.
    apply list_fmap_ext. intros _ vid _.
    change (stat_videoId (default (not_available vid) (find_stat stats vid))
            = vid).
    destruct (find_stat stats vid) as [s|] eqn:Hfind; [|done].
    by apply find_stat_Some in Hfind as [_ ?].
  - apply Forall_fmap, Forall_forall. intros vid _.
    change (returned fetch (default (not_available vid) (find_stat stats vid))
            ∨ default (not_available vid) (find_stat stats vid)
              = not_available
                  (stat_videoId
                     (default (not_available vid) (find_stat stats vid)))).
    destruct (find_stat stats vid) as [s|] eqn:Hfind; [|by right].
    left. apply find_stat_Some in Hfind as [Hin _].
    by exists (videos_url apiKey videoIds), w, (item :: items), w'.
Qed.





(** The requests of a list of group calls and what they came to, as the
    recorder sees them: both servers make the same requests and leave the
    same world; the persisting server answers a group with the records
    delivered, src/index.ts with one record per id of the group. *)
Lemma all_observing apiKey (groups : list (list string)) log0 w :
  ∃ log w',
    log.*1 = videos_url apiKey <$> groups
    ∧ all (Persisting.getVideoStatistics (observing fetch) apiKey <$> groups)
          (log0, w)
      = (inr (delivered <$> log.*2), (log0 ++ log, w'))
    ∧ all (Persisting.getVideoStatistics fetch apiKey <$> groups) w
      = (inr (delivered <$> log.*2), w')
    ∧ all (IndexTs.getVideoStatistics (observing fetch) apiKey <$> groups)
          (log0, w)
      = (inr (zip_with
                (λ g r,
                   (λ x, default (not_available x)
                                 (find_stat (delivered r) x)) <$> g)
                groups log.*2), (log0 ++ log, w'))
    ∧ all (IndexTs.getVideoStatistics fetch apiKey <$> groups) w
      = (inr (zip_with
                (λ g r,
                   (λ x, default (not_available x)
                                 (find_stat (delivered r) x)) <$> g)
                groups log.*2), w').
Proof.
  revert log0 w. induction groups as [|g groups IH]; intros log0 w.
  - exists [], w. simpl. by rewrite app_nil_r.
  - destruct (fetch (videos_url apiKey g) w) as [r w1] eqn:Hf.
    destruct (IH (log0 ++ [(videos_url apiKey g, r)]) w1)
      as (log & w' & Hurls & Hp & Hp' & Hi & Hi').
    exists ((videos_url apiKey g, r) :: log), w'.
    rewrite !fmap_cons. cbn [all fst snd zip_with].
    split; [by rewrite Hurls|].
    unfold Persisting.getVideoStatistics at 1 3, IndexTs.getVideoStatistics at 1 3,
      try_catch, observing at 1 3, bind.
    rewrite Hf.
    destruct r as [e|[[[|item items]|]]]; cbn [ret stats_items delivered];
      rewrite Hp, Hp', Hi, Hi', <- app_assoc; done.
Qed.


Lemma slices_nonempty fuel i (videoIds : list string) :
  slices fuel 50 i videoIds ≠ [] → (i < length videoIds)%nat.
Proof.
  destruct fuel as [|fuel]; simpl; [done|].
  by destruct (Nat.ltb_spec i (length videoIds)).
Qed.

Lemma slices_shape fuel i (videoIds : list string) pre g post :
  slices fuel 50 i videoIds = pre ++ g :: post →
  (1 ≤ length g ≤ 50)%nat ∧ (post ≠ [] → length g = 50%nat).
Proof.
  revert i pre. induction fuel as [|fuel IH]; intros i pre; simpl.
  - by destruct pre.
  - destruct (Nat.ltb_spec i (length videoIds)) as [Hlt|Hge];
      [|by destruct pre].
    destruct pre as [|p pre]; simpl.
    + intros [= <- <-]. rewrite length_take, length_drop. split; [lia|].
      intros Hpost%slices_nonempty. lia.
    + intros [= _ Hrest]. by eapply IH.
Qed.

(** A batch call, as the recorder sees it: one request per group of the
    slicing loop, in order; the persisting server returns the records
    delivered, src/index.ts one record per id. *)
Lemma batchGetVideoStatistics_observed apiKey (videoIds : list string) w :
  ∃ log w',
    log.*1 = videos_url apiKey <$> slices (length videoIds) 50 0 videoIds
    ∧ Persisting.batchGetVideoStatistics (observing fetch) apiKey videoIds
        ([], w)
      = (inr (concat (delivered <$> log.*2)), (log, w'))
    ∧ Persisting.batchGetVideoStatistics fetch apiKey videoIds w
      = (inr (concat (delivered <$> log.*2)), w')
    ∧ IndexTs.batchGetVideoStatistics (observing fetch) apiKey videoIds
        ([], w)
      = (inr (concat
                (zip_with
                   (λ g r,
                      (λ x, default (not_available x)
                                    (find_stat (delivered r) x)) <$> g)
                   (slices (length videoIds) 50 0 videoIds) log.*2)),
         (log, w'))
    ∧ IndexTs.batchGetVideoStatistics fetch apiKey videoIds w
      = (inr (concat
                (zip_with
                   (λ g r,
                      (λ x, default (not_available x)
                                    (find_stat (delivered r) x)) <$> g)
                   (slices (length videoIds) 50 0 videoIds) log.*2)),
         w').
Proof.
  destruct (all_observing apiKey (slices (length videoIds) 50 0 videoIds) [] w)
    as (log & w' & Hurls & Hp & Hp' & Hi & Hi').
  exists log, w'.
  unfold Persisting.batchGetVideoStatistics, IndexTs.batchGetVideoStatistics,
    bind.
  by rewrite Hp, Hp', Hi, Hi'.
Qed.


Lemma all_getVideoStatistics_one_per_id apiKey groups w :
  ∃ results w',
    all (IndexTs.getVideoStatistics fetch apiKey <$> groups) w = (inr results, w')
    ∧ stat_videoId <$> concat results = concat groups
    ∧ Forall (λ s, returned fetch s ∨ s = not_available (stat_videoId s))
        (concat results).
Proof.
  revert w. induction groups as [|g groups IH]; intros w.
  - eexists _, _. split_and!; [done..|constructor].
  - rewrite fmap_cons. cbn [all]. unfold bind.
    destruct (getVideoStatistics_one_per_id apiKey g w)
      as (stats & w1 & -> & Hids & Hs).
    destruct (IH w1) as (results & w2 & -> & Hids' & Hr).
    eexists _, _. split_and!; [done| |]; simpl.
    + by rewrite fmap_app, Hids, Hids'.
    + by apply Forall_app.
Qed.

(** The report of src/index.ts in terms of the upstream as a whole: one
    entry per video, and the sentinel three times for a video id that no
    fulfilled request delivers (the statistics list then holds the sentinel
    record for it). *)
Lemma report_sentinel apiKey (videos : list video) w :
  ∃ stats w',
    IndexTs.batchGetVideoStatistics fetch apiKey (videoId <$> videos) w
      = (inr stats, w')
    ∧ stat_videoId <$> stats = videoId <$> videos
    ∧ IndexTs.videoID <$> IndexTs.videosWithStats videos stats
      = videoId <$> videos
    ∧ ∀ i video,
        videos !! i = Some video →
        (∀ s, returned fetch s → stat_videoId s ≠ videoId video) →
        ∃ e, IndexTs.videosWithStats videos stats !! i = Some e
             ∧ IndexTs.entry_viewCount e = "N/A"
             ∧ IndexTs.entry_likeCount e = "N/A"
             ∧ IndexTs.entry_commentCount e = "N/A".
Proof.
  unfold IndexTs.batchGetVideoStatistics, bind.
  destruct (all_getVideoStatistics_one_per_id apiKey
              (slices (length (videoId <$> videos)) 50 0 (videoId <$> videos)) w)
    as (results & w' & -> & Hids & Hr).
  rewrite slices_concat in Hids.
  eexists _, _. split; [done|]. unfold IndexTs.videosWithStats. split_and!.
  - done.
  - rewrite <- list_fmap_compose. by apply list_fmap_ext.
  - intros i video Hi Hnone. rewrite list_lookup_fmap, Hi. simpl.
    eexists. split; [done|].
    destruct (find_stat (concat results) (videoId video)) as [s|] eqn:Hfind;
      [|done].
    apply find_stat_Some in Hfind as [Hin Hid].
    eapply Forall_forall in Hr as [Hret| ->]; [|done..].
    by destruct (Hnone s Hret).
Qed.

End StatisticsClaims.


(** One failed group among two: 51 videos, the request for the first 50 ids
    fails and the request for the last id is answered. The report has 51
    entries; the first 50 carry the sentinel, the last one its counts. *)
Lemma one_failed_group :
  let videos := Api.to_video <$> Stub.items_of "a" 51 in
  ∃ stats,
    Persisting.batchGetVideoStatistics Stub.first_group_fails "KEY"
      (Api.videoId <$> videos) () = (inr stats, ())
    ∧ stats = [Api.Stat "a50" "10" "2" "1"]
    ∧ (λ e, (Persisting.entry_viewCount e, Persisting.entry_likeCount e,
             Persisting.entry_commentCount e))
        <$> Persisting.videosWithStats "@foo" videos stats
      = replicate 50 ("N/A", "N/A", "N/A") ++ [("10", "2", "1")].
Proof. eexists. split_and!; [by vm_compute|done|by vm_compute]. Qed.

(** ** Persisting the videos *)

Section PersistClaims.
Import Api Persisting.
Context {W : Type}.
Variable select_videos : M W (list (Z * string)).
Variable insert_videos : list video_row → M W (list video_record).

Lemma set_all_is_Some (pairs : list (string * Z)) (m : gmap string Z) k :
  is_Some (set_all pairs m !! k) ↔ k ∈ pairs.*1 ∨ is_Some (m !! k).
Proof.
  unfold set_all. revert m.
  induction pairs as [|[k' v] pairs IH]; intros m; simpl.
  - split; [by right|]. intros [Hin|Hm]; [by apply elem_of_nil in Hin|done].
  - rewrite IH, elem_of_cons, lookup_insert_is_Some. simpl.
    destruct (decide (k' = k)) as [->|Hne]; intuition congruence.
Qed.

(** A row is an object with five keys. *)
Lemma video_row_parameters (row : video_row) : itemParameters row = 5.
Proof. by destruct row. Qed.

(** The rows kept for insertion are those whose id the store did not
    report. *)
Lemma new_rows_filter (existing : list (Z * string)) (videosData : list video_row) :
  List.filter
    (λ video, negb (bool_decide (is_Some
       (set_all ((λ v, (v.2, v.1)) <$> existing) ∅ !! row_videoId video))))
    videosData
  = filter (λ row, row_videoId row ∉ existing.*2) videosData.
Proof.
  induction videosData as [|row rows IH]; [done|]. simpl.
  rewrite filter_cons, IH.
  assert (is_Some (set_all ((λ v, (v.2, v.1)) <$> existing) ∅ !! row_videoId row)
          ↔ row_videoId row ∈ existing.*2) as Hiff.
  { rewrite set_all_is_Some, <- list_fmap_compose.
    split; [intros [Hin|[x Hx]]; [done|by rewrite lookup_empty in Hx]|by left]. }
  destruct (decide (row_videoId row ∉ existing.*2)) as [Hnew|Hold].
  - rewrite bool_decide_eq_false_2; [done|]. by rewrite Hiff.
  - rewrite bool_decide_eq_true_2; [done|]. rewrite Hiff.
    by destruct (decide (row_videoId row ∈ existing.*2)).
Qed.

(** Whatever happens, the insert operation only ever sees rows whose id
    the store did not report, in input order. *)
Lemma batchInsertVideos_only_new_rows videosData w r log w' :
  batchInsertVideos (unspied (T:=video_row) select_videos) (spy insert_videos)
    videosData ([], w) = (r, (log, w')) →
  log = []
  ∨ ∃ existing w1,
      select_videos w = (inr existing, w1)
      ∧ concat log
          `prefix_of` filter (λ row, row_videoId row ∉ existing.*2) videosData.
Proof.
  unfold batchInsertVideos, bind, unspied at 1.
  destruct (select_videos w) as [[e|existing] w1] eqn:Hsel.
  - intros [= <- <- <-]. by left.
  - rewrite new_rows_filter.
    destruct (autochunk _ _ _ _) as [r1 [log1 w2]] eqn:Hauto.
    apply autochunk_spy_passed in Hauto as [Hprefix _].
    destruct r1; intros [= <- <- <-]; right; by exists existing, w1.
Qed.

(** C9, as amended. When [batchInsertVideos] returns normally, the rows it
    passed to the insert operation, batch after batch, are exactly the
    input rows whose external video id the store did not report, in input
    order; no passed row has an id that the store reported. *)
Theorem batchInsertVideos_inserts_new_rows videosData w m log w' :
  batchInsertVideos (unspied (T:=video_row) select_videos) (spy insert_videos)
    videosData ([], w) = (inr m, (log, w')) →
  ∃ existing w1,
    select_videos w = (inr existing, w1)
    ∧ concat log = filter (λ row, row_videoId row ∉ existing.*2) videosData
    ∧ Forall (Forall (λ row, row_videoId row ∉ existing.*2)) log.
Proof.
  unfold batchInsertVideos, bind, unspied at 1.
  destruct (select_videos w) as [[e|existing] w1] eqn:Hsel; [discriminate|].
  rewrite new_rows_filter.
  destruct (autochunk _ _ _ _) as [[e|inserted] [log1 w2]] eqn:Hauto;
    [discriminate|].
  intros Heq. injection Heq as _ Hlog Hw. subst log1 w2.
  apply autochunk_spy_passed in Hauto as [_ Hconcat].
  specialize (Hconcat inserted eq_refl).
  exists existing, w1. split_and!; [done..|].
  apply Forall_concat. rewrite Hconcat.
  apply Forall_forall. intros row Hin.
  by apply list_elem_of_filter in Hin as [? _].
Qed.

(** The call does return normally when the store answers both operations:
    rows never fail the planner's checks. *)
Lemma batchInsertVideos_total videosData w existing w1 :
  select_videos w = (inr existing, w1) →
  (∀ c st, ∃ r st', insert_videos c st = (inr r, st')) →
  ∃ m w', batchInsertVideos select_videos insert_videos videosData w
          = (inr m, w').
Proof.
  intros Hsel Hins. unfold batchInsertVideos, bind. rewrite Hsel.
  destruct (autochunk_total (U:=video_record)
              (List.filter
                 (λ video, negb (bool_decide (is_Some
                    (set_all ((λ v, (v.2, v.1)) <$> existing) ∅
                       !! row_videoId video)))) videosData)
              insert_videos 0 w1) as (res & w2 & ->); [|done|by eexists _, _].
  unfold reaches_execution, plan. simpl.
  destruct (plan_loop_total 0
              (List.filter
                 (λ video, negb (bool_decide (is_Some
                    (set_all ((λ v, (v.2, v.1)) <$> existing) ∅
                       !! row_videoId video)))) videosData)
              (Planner [] [] 0)) as [p ->]; [|by eexists].
  apply Forall_forall. intros row _. rewrite video_row_parameters.
  unfold D1_MAX_PARAMETERS. lia.
Qed.

End PersistClaims.

(** C9 as stated fails when an insert is rejected before the last batch.
    Of 21 unknown rows the first two share a video id; the first batch of 20
    rows violates the UNIQUE index and is rejected, and the last row, whose
    id is not in the store, is never passed to the insert operation. *)
Lemma rejected_batch_hides_new_rows :
  let run :=
    Persisting.batchInsertVideos
      (unspied (T:=Persisting.video_row) Stub.table_select)
      (spy Stub.table_insert) Stub.rows_with_duplicate ([], []) in
  run.1 = inl (Error "D1_ERROR: UNIQUE constraint failed: videos.video_id")
  ∧ run.2.1 = [take 20 Stub.rows_with_duplicate]
  ∧ filter (λ row, Persisting.row_videoId row ∉ ([] : list string))
      Stub.rows_with_duplicate = Stub.rows_with_duplicate
  ∧ concat run.2.1 ≠ Stub.rows_with_duplicate.
Proof.
  split_and!.
  - by vm_compute.
  - by vm_compute.
  - by vm_compute.
  - intros Heq. apply (f_equal length) in Heq. vm_compute in Heq. discriminate.
Qed.

Lemma batchInsertVideos_inserts_new_rows_witness :
  ∃ existing w1,
    Stub.table_select Stub.stored_5 = (inr existing, w1)
    ∧ concat [take 20 (drop 5 Stub.rows_25)]
      = filter (λ row, Persisting.row_videoId row ∉ existing.*2) Stub.rows_25
    ∧ Forall (Forall (λ row, Persisting.row_videoId row ∉ existing.*2))
        [take 20 (drop 5 Stub.rows_25)].
Proof.
  apply (batchInsertVideos_inserts_new_rows Stub.table_select Stub.table_insert
           Stub.rows_25 Stub.stored_5
           (Persisting.set_all
              ((λ i : nat, ("v" +:+ pretty i, Z.of_nat (i + 1))) <$> seq 0 25) ∅)
           [take 20 (drop 5 Stub.rows_25)]
           (Stub.stored_5
              ++ imap (λ i r, Persisting.VideoRecord (Z.of_nat (5 + i + 1))
                                (Persisting.row_videoId r)
                                (Persisting.row_channelId r)
                                (Persisting.row_title r) (Persisting.row_url r)
                                (Persisting.row_thumbnailUrl r))
                      (drop 5 Stub.rows_25))).
  vm_compute. reflexivity.
Defined.

(** * Further properties *)

(** ** The chunk planner: shape of the plan and failure of the callback *)

Section AutochunkShape.
Context {T U St : Type} `{ToJs T}.
Implicit Types (items : list T) (cb : list T → M St (list U)).

Lemma Forall_prefix {A} (P : A → Prop) (l k : list A) :
  l `prefix_of` k → Forall P k → Forall P l.
Proof. intros [rest ->] Hk. by apply Forall_app in Hk as [? _]. Qed.

(** X1. When every item, together with the reserved count, fits under the
    ceiling, every batch the callback is invoked on is non-empty and its
    cost plus the reserved count is at most 100, whether or not the callback
    fails along the way. *)
Theorem autochunk_batches_within_ceiling items cb other s r log s' :
  Forall (λ x, itemParameters x + other ≤ D1_MAX_PARAMETERS) items →
  autochunk items (spy cb) other ([], s) = (r, (log, s')) →
  Forall (λ c, c ≠ [] ∧ batch_cost c + other ≤ D1_MAX_PARAMETERS) log.
Proof.
  intros Hitems. unfold autochunk.
  destruct (plan items other) as [e|cs] eqn:Hplan.
  - intros [= <- <- <-]. constructor.
  - unfold bind.
    destruct (run_chunks (spy cb) cs [] ([], s)) as [r1 [log1 s1]] eqn:Hrun.
    apply run_chunks_spy in Hrun as (passed & -> & Hpre & _).
    pose proof (plan_within_ceiling other items cs Hitems Hplan) as Hcs.
    destruct r1; intros [= <- <- <-]; simpl; by eapply Forall_prefix.
Qed.

Lemma greedy_snoc_item other (cs : list (list T)) c x :
  greedy other (cs ++ [c]) → greedy other (cs ++ [c ++ [x]]).
Proof.
  revert c. induction cs as [|c0 cs IH]; intros c Hg.
  - constructor.
  - destruct cs as [|c1 cs]; simpl in *.
    + inv Hg. apply greedy_cons; [done|apply greedy_one].
    + inv Hg. apply greedy_cons; [done|]. by apply (IH c).
Qed.

Lemma greedy_snoc_chunk other (cs : list (list T)) c x :
  greedy other (cs ++ [c]) →
  D1_MAX_PARAMETERS < batch_cost c + itemParameters x + other →
  greedy other ((cs ++ [c]) ++ [[x]]).
Proof.
  revert c. induction cs as [|c0 cs IH]; intros c Hg Hover.
  - simpl. apply greedy_cons; [done|apply greedy_one].
  - destruct cs as [|c1 cs]; simpl in *.
    + inv Hg. apply greedy_cons; [done|].
      apply greedy_cons; [done|apply greedy_one].
    + inv Hg. apply greedy_cons; [done|]. by apply (IH c).
Qed.

Lemma greedy_last_empty other (cs : list (list T)) :
  greedy other (cs ++ [[]]) → cs = [].
Proof.
  induction cs as [|c0 cs IH]; intros Hg; [done|].
  destruct cs as [|c1 cs]; simpl in *; inv Hg.
  by discriminate (IH ltac:(done)).
Qed.

Lemma plan_loop_greedy other items (p p' : planner T) :
  greedy other (chunks p ++ [chunk p]) →
  chunkParameters p = batch_cost (chunk p) →
  plan_loop other items p = inr p' →
  greedy other (chunks p' ++ [chunk p']).
Proof.
  revert p. induction items as [|x l IH]; intros p Hg Hcost Hp; simpl in Hp.
  - by injection Hp as <-.
  - destruct (Z.ltb_spec D1_MAX_PARAMETERS (itemParameters x)); [discriminate|].
    destruct (Z.ltb_spec D1_MAX_PARAMETERS
                (chunkParameters p + itemParameters x + other)) as [Hover|Hfits];
      apply IH in Hp; try done; simpl.
    + apply greedy_snoc_chunk; [done|lia].
    + lia.
    + by apply greedy_snoc_item.
    + rewrite batch_cost_snoc. lia.
Qed.

Lemma plan_greedy other items cs :
  plan items other = inr cs → greedy other cs.
Proof.
  unfold plan. destruct (D1_MAX_PARAMETERS <? other); [discriminate|].
  destruct (plan_loop other items _) as [e|p] eqn:Hp; [discriminate|].
  intros [= <-].
  apply plan_loop_greedy in Hp; [|constructor|done].
  destruct (chunk p) as [|y c] eqn:Hc; simpl; [|done].
  rewrite (greedy_last_empty _ _ Hp). constructor.
Qed.

Lemma greedy_split other (cs pre : list (list T)) c1 c2 post :
  greedy other cs → cs = pre ++ c1 :: c2 :: post →
  ∃ x c2', c2 = x :: c2'
           ∧ D1_MAX_PARAMETERS < batch_cost c1 + itemParameters x + other.
Proof.
  intros Hg. revert pre. induction Hg as [|c|d1 x d2 ds Hover Hg IH];
    intros pre Heq.
  - by destruct pre.
  - by destruct pre as [|? [|? ?]].
  - destruct pre as [|d pre]; simpl in Heq.
    + injection Heq as <- <- <-. by eexists _, _.
    + injection Heq as <- Heq. by apply (IH pre).
Qed.

(** X2. The plan is greedy: whenever a batch is followed by another one, the
    later batch is non-empty and its first item did not fit into the earlier
    batch any more (the earlier batch's cost, the item's cost and the
    reserved count together exceed 100). Only the very first batch of a plan
    can be empty. *)
Theorem plan_is_greedy items other cs pre c1 c2 post :
  plan items other = inr cs →
  cs = pre ++ c1 :: c2 :: post →
  ∃ x c2', c2 = x :: c2'
           ∧ D1_MAX_PARAMETERS < batch_cost c1 + itemParameters x + other.
Proof.
  intros Hplan Heq. eapply greedy_split; [|done]. by eapply plan_greedy.
Qed.

(** The execution loop under a spy, when it ends with a rejection: the
    rejection is the callback's, on the last batch of the log. *)
Lemma run_chunks_spy_rejected cb todo results log s e log' s' :
  run_chunks (spy cb) todo results (log, s) = (inl e, (log', s')) →
  ∃ passed c rest st,
    todo = passed ++ c :: rest ∧ log' = log ++ passed ++ [c]
    ∧ cb c st = (inl e, s').
Proof.
  revert results log s. induction todo as [|c todo IH]; intros results log s.
  - discriminate.
  - simpl. unfold bind, spy at 1.
    destruct (cb c s) as [[e1|res] s1] eqn:Hcb.
    + intros [= <- <- <-]. by exists [], c, todo, s.
    + intros Hrun. apply IH in Hrun as (passed & c' & rest & st & -> & -> & Hc').
      exists (c :: passed), c', rest, st. by rewrite <- !app_assoc.
Qed.

(** X3. Once planning has succeeded, the only way for the planner to fail is
    a rejection by the callback: the planner then rejects with the very same
    value, the rejected batch is the last one the callback has seen, and the
    batches planned after it are never passed. *)
Theorem autochunk_callback_rejection items cb other s cs e log s' :
  plan items other = inr cs →
  autochunk items (spy cb) other ([], s) = (inl e, (log, s')) →
  ∃ passed c rest st,
    cs = passed ++ c :: rest ∧ log = passed ++ [c] ∧ cb c st = (inl e, s').
Proof.
  intros Hplan. unfold autochunk. rewrite Hplan. unfold bind.
  destruct (run_chunks (spy cb) cs [] ([], s)) as [[e1|rs] [log1 s1]] eqn:Hrun;
    [|discriminate].
  intros [= <- <- <-].
  by apply run_chunks_spy_rejected in Hrun.
Qed.

(** Planning succeeds when the reserved count and every item fit. *)
Lemma reaches_execution_plan items other :
  other ≤ D1_MAX_PARAMETERS →
  Forall (λ x, itemParameters x ≤ D1_MAX_PARAMETERS) items →
  reaches_execution items other.
Proof.
  intros Hother Hitems. unfold reaches_execution, plan.
  destruct (Z.ltb_spec D1_MAX_PARAMETERS other); [lia|].
  destruct (plan_loop_total other items (Planner [] [] 0) Hitems) as [p ->].
  by eexists.
Qed.

(** X4. Planning succeeds exactly when the reserved count and every single
    item stay within the ceiling; how the items add up plays no role. *)
Theorem reaches_execution_iff items other :
  reaches_execution items other
  ↔ other ≤ D1_MAX_PARAMETERS
    ∧ Forall (λ x, itemParameters x ≤ D1_MAX_PARAMETERS) items.
Proof.
  unfold reaches_execution, plan. split.
  - intros [cs Hplan].
    destruct (Z.ltb_spec D1_MAX_PARAMETERS other); [discriminate|].
    split; [done|].
    apply Forall_forall. intros x Hx.
    destruct (decide (itemParameters x ≤ D1_MAX_PARAMETERS)) as [|Hbig]; [done|].
    assert (Exists (λ x, D1_MAX_PARAMETERS < itemParameters x) items) as Hex.
    { apply Exists_exists. exists x. split; [done|lia]. }
    destruct (first_too_large items Hex) as (pre & y & post & -> & Hpre & Hy).
    by rewrite (plan_loop_too_large other pre y post _ Hpre Hy) in Hplan.
  - intros [Hother Hitems].
    destruct (Z.ltb_spec D1_MAX_PARAMETERS other); [lia|].
    destruct (plan_loop_total other items (Planner [] [] 0) Hitems) as [p ->].
    by eexists.
Qed.

Lemma batch_cost_uniform (k : Z) (c : list T) :
  Forall (λ x, itemParameters x = k) c → batch_cost c = k * Z.of_nat (length c).
Proof.
  induction 1 as [|x c Hx _ IH]; simpl; [lia|]. rewrite IH, Hx. lia.
Qed.

(** Sizes of the batches of a greedy sequence that respects the ceiling,
    when all items cost the same. *)
Lemma uniform_batch_sizes other k (cs pre : list (list T)) c post :
  0 < k →
  Forall (Forall (λ x, itemParameters x = k)) cs →
  Forall (λ c, c ≠ [] ∧ batch_cost c + other ≤ D1_MAX_PARAMETERS) cs →
  greedy other cs →
  cs = pre ++ c :: post →
  c ≠ []
  ∧ Z.of_nat (length c) ≤ (D1_MAX_PARAMETERS - other) / k
  ∧ (post ≠ [] → Z.of_nat (length c) = (D1_MAX_PARAMETERS - other) / k).
Proof.
  intros Hk Huni Hall Hg Hcs.
  assert (c ∈ cs) as Hc.
  { subst cs. apply elem_of_app. right. by left. }
  eapply Forall_forall in Hall as [Hne Hcost]; [|done].
  pose proof (proj1 (Forall_forall _ _) Huni c Hc) as Hcu.
  rewrite (batch_cost_uniform k c Hcu) in Hcost.
  pose proof (Z.mul_div_le (D1_MAX_PARAMETERS - other) k Hk) as Hdiv.
  pose proof (Z.mul_succ_div_gt (D1_MAX_PARAMETERS - other) k Hk) as Hdiv'.
  split_and!; [done|nia|].
  intros Hpost. destruct post as [|c2 post]; [done|].
  destruct (greedy_split other cs pre c c2 post Hg Hcs)
    as (x & c2' & -> & Hover).
  assert (itemParameters x = k) as Hx.
  { assert ((x :: c2') ∈ cs) as Hin.
    { subst cs. apply elem_of_app. right. right. by left. }
    pose proof (proj1 (Forall_forall _ _) Huni _ Hin) as Hxu. by inv Hxu. }
  rewrite (batch_cost_uniform k c Hcu), Hx in Hover. nia.
Qed.

(** X5. Items of one and the same cost [k] are cut into full batches: every
    batch is non-empty and holds at most [(100 - reserved) / k] items, and
    every batch but the last holds exactly that many. *)
Theorem plan_uniform_batches items other k cs pre c post :
  0 < k →
  Forall (λ x, itemParameters x = k) items →
  k + other ≤ D1_MAX_PARAMETERS →
  plan items other = inr cs →
  cs = pre ++ c :: post →
  c ≠ []
  ∧ Z.of_nat (length c) ≤ (D1_MAX_PARAMETERS - other) / k
  ∧ (post ≠ [] → Z.of_nat (length c) = (D1_MAX_PARAMETERS - other) / k).
Proof.
  intros Hk Hitems Hfit Hplan Hcs.
  apply (uniform_batch_sizes other k cs pre c post); try done.
  - rewrite <- (plan_concat _ _ _ Hplan) in Hitems.
    by apply Forall_concat in Hitems.
  - apply (plan_within_ceiling other items); [|done].
    eapply Forall_impl; [done|]. simpl. intros x ->. lia.
  - by eapply plan_greedy.
Qed.

(** What a spied callback has received is an initial part of the plan. *)
Lemma autochunk_log_prefix items cb other s cs r log s' :
  plan items other = inr cs →
  autochunk items (spy cb) other ([], s) = (r, (log, s')) →
  log `prefix_of` cs.
Proof.
  intros Hplan. unfold autochunk. rewrite Hplan. unfold bind.
  destruct (run_chunks (spy cb) cs [] ([], s)) as [r1 [log1 s1]] eqn:Hrun.
  apply run_chunks_spy in Hrun as (passed & -> & Hpre & _).
  by destruct r1; intros [= <- <- <-].
Qed.

(** With a callback that answers item by item, a normal return answers the
    input item by item. *)
Lemma autochunk_answers (R : T → U → Prop) items cb other s res s' :
  (∀ c st r st', cb c st = (inr r, st') → Forall2 R c r) →
  autochunk items cb other s = (inr res, s') →
  Forall2 R items res.
Proof.
  intros Hcb. unfold autochunk.
  destruct (plan items other) as [e|cs] eqn:Hplan; [discriminate|].
  unfold bind. destruct (run_chunks cb cs [] s) as [[e|rs] s1] eqn:Hrun;
    [discriminate|].
  intros [= <- <-].
  eapply run_chunks_results in Hrun as (rs' & -> & Hrs); [|done].
  simpl. apply Forall2_concat in Hrs.
  by rewrite (plan_concat _ _ _ Hplan) in Hrs.
Qed.

(** The batches a spied callback has received, for items of one cost. *)
Lemma autochunk_uniform_log items cb k s r log s' pre c post :
  0 < k → k ≤ D1_MAX_PARAMETERS →
  Forall (λ x, itemParameters x = k) items →
  autochunk items (spy cb) 0 ([], s) = (r, (log, s')) →
  log = pre ++ c :: post →
  c ≠ []
  ∧ Z.of_nat (length c) ≤ D1_MAX_PARAMETERS / k
  ∧ (post ≠ [] → Z.of_nat (length c) = D1_MAX_PARAMETERS / k).
Proof.
  intros Hk Hfit Hitems Hrun Hlog.
  destruct (plan items 0) as [e|cs] eqn:Hplan.
  - unfold autochunk in Hrun. rewrite Hplan in Hrun.
    injection Hrun as _ <- _. by destruct pre.
  - destruct (autochunk_log_prefix _ _ _ _ _ _ _ _ Hplan Hrun) as [rest Hcs].
    rewrite <- (Z.sub_0_r D1_MAX_PARAMETERS).
    destruct (uniform_batch_sizes 0 k cs pre c (post ++ rest)) as (H1 & H2 & H3);
      try done.
    + rewrite <- (plan_concat _ _ _ Hplan) in Hitems.
      by apply Forall_concat in Hitems.
    + apply (plan_within_ceiling 0 items); [|done].
      eapply Forall_impl; [done|]. simpl. intros x ->. lia.
    + by eapply plan_greedy.
    + subst log cs. by rewrite <- app_assoc.
    + split_and!; [done..|]. intros Hpost. apply H3. by destruct post.
Qed.

End AutochunkShape.

Lemma autochunk_batches_within_ceiling_witness :
  Forall (λ c : list Js.value, c ≠ [] ∧ batch_cost c + 0 ≤ D1_MAX_PARAMETERS)
    [replicate 100 (VString "a"); [VString "a"]].
Proof.
  apply (autochunk_batches_within_ceiling Stub.scalars Stub.echo 0 ()
           (inr Stub.scalars) [replicate 100 (VString "a"); [VString "a"]] ()).
  - apply Forall_forall. intros x Hx. apply elem_of_replicate in Hx as [-> _].
    vm_compute. discriminate.
  - vm_compute. reflexivity.
Defined.

Lemma plan_is_greedy_witness :
  ∃ x c2', [VString "a"] = x :: c2'
    ∧ D1_MAX_PARAMETERS
      < batch_cost (replicate 100 (VString "a")) + itemParameters x + 0.
Proof.
  apply (plan_is_greedy Stub.scalars 0
           [replicate 100 (VString "a"); [VString "a"]]
           [] (replicate 100 (VString "a")) [VString "a"] []).
  - vm_compute. reflexivity.
  - reflexivity.
Defined.

Lemma autochunk_callback_rejection_witness :
  ∃ passed c rest st,
    [replicate 100 (VString "a"); [VString "a"]] = passed ++ c :: rest
    ∧ [replicate 100 (VString "a")] = passed ++ [c]
    ∧ Stub.rejecting c st
      = (inl (Error "D1_ERROR: backend unavailable"), ()).
Proof.
  apply (autochunk_callback_rejection Stub.scalars Stub.rejecting 0 ()
           [replicate 100 (VString "a"); [VString "a"]]
           (Error "D1_ERROR: backend unavailable")
           [replicate 100 (VString "a")] ()).
  - vm_compute. reflexivity.
  - vm_compute. reflexivity.
Defined.

Lemma plan_uniform_batches_witness :
  replicate 100 (VString "a") ≠ []
  ∧ Z.of_nat (length (replicate 100 (VString "a"))) ≤ (D1_MAX_PARAMETERS - 0) / 1
  ∧ ([[VString "a"]] ≠ []
     → Z.of_nat (length (replicate 100 (VString "a")))
       = (D1_MAX_PARAMETERS - 0) / 1).
Proof.
  apply (plan_uniform_batches Stub.scalars 0 1
           [replicate 100 (VString "a"); [VString "a"]]
           [] (replicate 100 (VString "a")) [[VString "a"]]).
  - lia.
  - apply Forall_forall. intros x Hx. apply elem_of_replicate in Hx as [-> _].
    reflexivity.
  - vm_compute. discriminate.
  - vm_compute. reflexivity.
  - reflexivity.
Defined.

(** ** The identity resolver, in general *)

Section ExecFacts.
Variable input : string.
Implicit Types (k : string → captures → option captures).

Lemma exec_lit_app l s caps k :
  exec input (lit l) (l +:+ s) caps k = k s caps.
Proof.
  induction l as [|c l IH]; simpl; [done|]. by rewrite Ascii.eqb_refl.
Qed.

Lemma exec_lit_fail l s caps k :
  String.prefix l s = false → exec input (lit l) s caps k = None.
Proof.
  revert s. induction l as [|c l IH]; intros s; simpl; [by destruct s|].
  destruct s as [|c' s]; [done|]. simpl.
  destruct (ascii_dec c c') as [->|Hne].
  - rewrite Ascii.eqb_refl. apply IH.
  - intros _. by apply Ascii.eqb_neq in Hne as ->.
Qed.

Lemma exec_times_class p n body s caps k :
  String.length body = n → all_chars p body = true →
  exec input (Times n (Class p)) (body +:+ s) caps k = k s caps.
Proof.
  intros <- Hall. cbn [exec].
  induction body as [|c body IH]; simpl in *; [done|].
  apply andb_prop in Hall as [-> Hall]. by apply IH.
Qed.

Lemma exec_plus_class_cons p c s caps k :
  exec input (Plus (Class p)) (String c s) caps k
  = if p c
    then match exec input (Plus (Class p)) s caps k with
         | Some m => Some m
         | None => k s caps
         end
    else None.
Proof.
  cbn [exec]. destruct (p c); [|done].
  change (String.length (String c s)) with (S (String.length s)).
  by rewrite (proj2 (Nat.ltb_lt _ _) (Nat.lt_succ_diag_r _)).
Qed.

Lemma exec_plus_class p name caps k m :
  name ≠ "" → all_chars p name = true →
  k "" caps = Some m →
  exec input (Plus (Class p)) name caps k = Some m.
Proof.
  intros Hne Hall Hk.
  induction name as [|c name IH]; [done|].
  simpl in Hall. apply andb_prop in Hall as [Hc Hall].
  rewrite exec_plus_class_cons, Hc.
  destruct name as [|c' name].
  - by rewrite Hk.
  - by rewrite IH.
Qed.
End ExecFacts.

Lemma substring_full (s : string) :
  String.substring 0 (String.length s - 0) s = s.
Proof.
  rewrite Nat.sub_0_r. induction s as [|c s IH]; simpl; [done|]. by rewrite IH.
Qed.

Lemma prefix_all_chars p l name :
  all_chars p name = true → all_chars p l = false → String.prefix l name = false.
Proof.
  revert name. induction l as [|c l IH]; intros name Hname Hl; [done|].
  destruct name as [|c' name]; [done|]. simpl in *.
  apply andb_prop in Hname as [Hc' Hname].
  destruct (ascii_dec c c') as [->|]; [|done].
  rewrite Hc' in Hl. by apply IH.
Qed.

Section UrlFacts.
Variable input : string.
Implicit Types (k : string → captures → option captures).

Lemma exec_Seq r1 r2 s caps k :
  exec input (Seq r1 r2) s caps k
  = exec input r1 s caps (λ s' caps', exec input r2 s' caps' k).
Proof. reflexivity. Qed.

Lemma exec_Group i r s caps k :
  exec input (Group i r) s caps k
  = exec input r s caps (λ s' caps',
      k s' (<[i := String.substring 0 (String.length s - String.length s') s]> caps')).
Proof. reflexivity. Qed.

Lemma exec_Alt r1 r2 s caps k :
  exec input (Alt r1 r2) s caps k
  = match exec input r1 s caps k with
    | Some m => Some m
    | None => exec input r2 s caps k
    end.
Proof. reflexivity. Qed.

Lemma exec_Opt r s caps k :
  exec input (Opt r) s caps k
  = match exec input r s caps k with
    | Some m => Some m
    | None => k s caps
    end.
Proof. reflexivity. Qed.

Lemma exec_Class_cons p c s caps k :
  exec input (Class p) (String c s) caps k = if p c then k s caps else None.
Proof. reflexivity. Qed.

Lemma exec_Eol_nil caps k : exec input Eol "" caps k = k "" caps.
Proof. reflexivity. Qed.

Lemma exec_Bol caps k : exec input Bol input caps k = k input caps.
Proof. cbn [exec]. by rewrite Nat.eqb_refl. Qed.

Definition K0 : string → captures → option captures :=
  λ s' caps', Some (<[0%nat := String.substring 0 (String.length input - String.length s') input]> caps').


Lemma exec_plus_to_end (name : string) caps (whole : string) k0 :
  name ≠ "" → all_chars handle_char name = true →
  (∀ caps', ∃ m, k0 "" caps' = Some m ∧ m !! 2%nat = caps' !! 2%nat) →
  ∃ m, exec input (Plus (Class (λ c, word c || one_of "@-" c))) name caps
         (λ s' caps', exec input Eol s'
            (<[2%nat := String.substring 0 (String.length whole - String.length s') whole]> caps') k0)
       = Some m
       ∧ m !! 2%nat = Some whole.
Proof.
  intros Hne Hname Hk0.
  destruct (Hk0 (<[2%nat := String.substring 0 (String.length whole - String.length "") whole]> caps))
    as (m & Hm & Hm2).
  exists m. split.
  - apply exec_plus_class; [done|done|]. by rewrite exec_Eol_nil.
  - rewrite Hm2, lookup_insert_eq. simpl. by rewrite substring_full.
Qed.

Lemma exec_path path caps k0 :
  url_path path →
  (∀ caps', ∃ m, k0 "" caps' = Some m ∧ m !! 2%nat = caps' !! 2%nat) →
  ∃ m, exec input PATH path caps k0 = Some m ∧ m !! 2%nat = Some path.
Proof.
  intros Hpath Hk0.
  rewrite exec_Seq, exec_Group, exec_Alt.
  destruct Hpath as [body last Hlen Hbody Hlast|name Hne Hname|name Hne Hname
                    |name Hne Hname].
  - rewrite exec_Seq, exec_lit_app, exec_Seq.
    rewrite exec_times_class by done.
    rewrite exec_Class_cons, Hlast, exec_Eol_nil.
    destruct (Hk0 (<[2%nat := String.substring 0
                       (String.length ("channel/UC" +:+ body +:+ String last "")
                        - String.length "")
                       ("channel/UC" +:+ body +:+ String last "")]> caps))
      as (m & -> & Hm2).
    exists m. split; [done|]. rewrite Hm2, lookup_insert_eq. simpl String.length at 2.
    by rewrite substring_full.
  - rewrite (exec_Seq (lit _)), exec_lit_fail by done.
    rewrite exec_Seq, exec_Opt, exec_Group, exec_Alt.
    rewrite (exec_lit_app _ "c/").
    destruct (exec_plus_to_end name
                (<[3%nat := String.substring 0
                     (String.length ("c/" +:+ name) - String.length name)
                     ("c/" +:+ name)]> caps) ("c/" +:+ name) k0 Hne Hname Hk0)
      as (m & -> & Hm2).
    by exists m.
  - rewrite (exec_Seq (lit _)), exec_lit_fail by done.
    rewrite exec_Seq, exec_Opt, exec_Group, exec_Alt.
    rewrite (exec_lit_fail _ "c/") by done.
    rewrite (exec_lit_app _ "user/").
    destruct (exec_plus_to_end name
                (<[3%nat := String.substring 0
                     (String.length ("user/" +:+ name) - String.length name)
                     ("user/" +:+ name)]> caps) ("user/" +:+ name) k0 Hne Hname Hk0)
      as (m & -> & Hm2).
    by exists m.
  - rewrite (exec_Seq (lit _)), exec_lit_fail
      by (by apply (prefix_all_chars handle_char)).
    rewrite exec_Seq, exec_Opt, exec_Group, exec_Alt.
    rewrite (exec_lit_fail _ "c/") by (by apply (prefix_all_chars handle_char)).
    rewrite (exec_lit_fail _ "user/") by (by apply (prefix_all_chars handle_char)).
    apply exec_plus_to_end; done.
Qed.

End UrlFacts.

Lemma search_cons input r c s :
  search input r (String c s)
  = match exec input (Group 0 r) (String c s) ∅ (λ _ caps, Some caps) with
    | Some m => Some m
    | None => search input r s
    end.
Proof. reflexivity. Qed.

Lemma extractUsername_url pre path :
  url_prefix pre → url_path path →
  Resolver.extractUsername (pre +:+ path) = Some path.
Proof.
  intros Hpre Hpath. unfold Resolver.extractUsername, Resolver.startsWith, str_match.
  assert (Hk0 : ∀ (input : string) (caps' : captures),
             ∃ m, (λ (s' : string) (caps'0 : captures),
                     Some (<[0%nat := String.substring 0
                              (String.length input - String.length s') input]> caps'0))
                    "" caps' = Some m
                  ∧ m !! 2%nat = caps' !! 2%nat).
  { intros input caps'. eexists. split; [done|]. by rewrite lookup_insert_ne. }
  unfold Resolver.urlRegex.
  set (R := Seq (Group 2 _) Eol).
  assert (HR : ∀ i caps k,
             (∀ caps', ∃ m, k "" caps' = Some m ∧ m !! 2%nat = caps' !! 2%nat) →
             ∃ m, exec i R path caps k = Some m ∧ m !! 2%nat = Some path).
  { intros i caps k Hk. by apply exec_path. }
  clearbody R.
  destruct Hpre; lazy beta iota delta [String.append];
    cbn [String.prefix];
    (destruct (ascii_dec _ _) as [?|_]; [discriminate|]);
    rewrite search_cons, exec_Group, exec_Seq, exec_Bol;
    cbn [exec lit Ascii.eqb Bool.eqb andb].
  all: match goal with
       | |- context [exec ?i _ _ ?caps ?k] =>
           destruct (HR i caps k (Hk0 _)) as (m & -> & Hm2)
       end; done.
Qed.

Section ExecInversion.
Variable input : string.
Implicit Types (k : string → captures → option captures).

Lemma exec_lit_inv l s caps k m :
  exec input (lit l) s caps k = Some m →
  ∃ s', s = l +:+ s' ∧ k s' caps = Some m.
Proof.
  revert s. induction l as [|c l IH]; intros s; simpl.
  - intros Hk. by exists s.
  - destruct s as [|c' s]; [done|].
    destruct (Ascii.eqb_spec c c') as [->|]; [|done].
    intros Hk. apply IH in Hk as (s' & -> & Hk). by exists s'.
Qed.

Lemma exec_Class_inv p s caps k m :
  exec input (Class p) s caps k = Some m →
  ∃ c s', s = String c s' ∧ p c = true ∧ k s' caps = Some m.
Proof.
  simpl. destruct s as [|c s]; [done|]. destruct (p c) eqn:Hc; [|done].
  intros Hk. by exists c, s.
Qed.

Lemma exec_Chr_inv c s caps k m :
  exec input (Chr c) s caps k = Some m →
  ∃ s', s = String c s' ∧ k s' caps = Some m.
Proof.
  simpl. destruct s as [|c' s]; [done|].
  destruct (Ascii.eqb_spec c c') as [->|]; [|done].
  intros Hk. by exists s.
Qed.

Lemma exec_Opt_inv r s caps k m :
  exec input (Opt r) s caps k = Some m →
  exec input r s caps k = Some m ∨ k s caps = Some m.
Proof.
  rewrite exec_Opt. destruct (exec input r s caps k); [by left|by right].
Qed.

Lemma exec_Alt_inv r1 r2 s caps k m :
  exec input (Alt r1 r2) s caps k = Some m →
  exec input r1 s caps k = Some m ∨ exec input r2 s caps k = Some m.
Proof.
  rewrite exec_Alt. destruct (exec input r1 s caps k); [by left|by right].
Qed.

Lemma exec_Eol_inv s caps k m :
  exec input Eol s caps k = Some m → s = "" ∧ k "" caps = Some m.
Proof. simpl. by destruct s. Qed.

Lemma exec_Bol_inv s caps k m :
  exec input Bol s caps k = Some m →
  String.length s = String.length input ∧ k s caps = Some m.
Proof.
  simpl. destruct (Nat.eqb_spec (String.length s) (String.length input)); done.
Qed.

Lemma exec_times_class_inv p n s caps k m :
  exec input (Times n (Class p)) s caps k = Some m →
  ∃ body s', s = body +:+ s' ∧ String.length body = n
             ∧ all_chars p body = true ∧ k s' caps = Some m.
Proof.
  cbn [exec]. revert s. induction n as [|n IH]; intros s.
  - intros Hk. by exists "", s.
  - destruct s as [|c s]; [done|]. destruct (p c) eqn:Hc; [|done].
    intros Hk. apply IH in Hk as (body & s' & -> & <- & Hbody & Hk).
    exists (String c body), s'. simpl. by rewrite Hc, Hbody.
Qed.

Lemma exec_plus_class_inv p s caps k m :
  exec input (Plus (Class p)) s caps k = Some m →
  ∃ name s', name ≠ "" ∧ s = name +:+ s'
             ∧ all_chars p name = true ∧ k s' caps = Some m.
Proof.
  induction s as [|c s IH]; [done|].
  rewrite exec_plus_class_cons. destruct (p c) eqn:Hc; [|done].
  destruct (exec input (Plus (Class p)) s caps k) as [m'|] eqn:Hrec.
  - intros [= ->]. destruct (IH eq_refl) as (name & s' & _ & -> & Hname & Hk).
    exists (String c name), s'. simpl. by rewrite Hc, Hname.
  - intros Hk. exists (String c ""), s. simpl. by rewrite Hc.
Qed.

End ExecInversion.

Lemma append_nil_r (s : string) : s +:+ "" = s.
Proof.
  induction s as [|c s IH]; [done|].
  change (String c s +:+ "") with (String c (s +:+ "")). by rewrite IH.
Qed.

Lemma append_length (s1 s2 : string) :
  String.length (s1 +:+ s2) = (String.length s1 + String.length s2)%nat.
Proof.
  induction s1 as [|c s1 IH]; [done|].
  change (String c s1 +:+ s2) with (String c (s1 +:+ s2)). simpl.
  by rewrite IH.
Qed.

Lemma search_inv input r s m :
  search input r s = Some m →
  ∃ pre s0, s = pre +:+ s0
            ∧ exec input (Group 0 r) s0 ∅ (λ _ caps, Some caps) = Some m.
Proof.
  induction s as [|c s IH].
  - simpl. destruct (exec input r "" ∅ _) eqn:He; [|done].
    intros [= <-]. by exists "", "".
  - rewrite search_cons.
    destruct (exec input (Group 0 r) (String c s) ∅ _) eqn:He.
    + intros [= <-]. by exists "", (String c s).
    + intros Hs. apply IH in Hs as (pre & s0 & -> & Hs0).
      by exists (String c pre), s0.
Qed.

Lemma exec_path_inv input path caps k0 m :
  (∀ caps' m', k0 "" caps' = Some m' → m' !! 2%nat = caps' !! 2%nat) →
  exec input PATH path caps k0 = Some m →
  url_path path ∧ m !! 2%nat = Some path.
Proof.
  intros Hk0. rewrite exec_Seq, exec_Group.
  intros [Hch|Hnm]%exec_Alt_inv.
  - rewrite exec_Seq in Hch.
    apply exec_lit_inv in Hch as (s1 & -> & Hch). rewrite exec_Seq in Hch.
    apply exec_times_class_inv in Hch as (body & s2 & -> & Hlen & Hbody & Hch).
    apply exec_Class_inv in Hch as (last & s3 & -> & Hlast & Hch).
    apply exec_Eol_inv in Hch as [-> Hm].
    split; [by constructor|].
    rewrite (Hk0 _ _ Hm), lookup_insert_eq. simpl String.length at 2.
    by rewrite substring_full.
  - rewrite exec_Seq in Hnm.
    assert (Hplus : ∀ s caps1,
               exec input (Plus (Class (λ c, word c || one_of "@-" c))) s caps1
                 (λ s' caps',
                    exec input Eol s'
                      (<[2%nat := String.substring 0
                           (String.length path - String.length s') path]> caps') k0)
               = Some m →
               s ≠ "" ∧ all_chars handle_char s = true
               ∧ m !! 2%nat = Some path).
    { intros s caps1 Hp.
      apply exec_plus_class_inv in Hp as (name & s' & Hne & -> & Hname & Hp).
      apply exec_Eol_inv in Hp as [-> Hm]. rewrite append_nil_r.
      split_and!; [done..|].
      rewrite (Hk0 _ _ Hm), lookup_insert_eq. simpl String.length at 2.
      by rewrite substring_full. }
    apply exec_Opt_inv in Hnm as [Htake|Hskip].
    + rewrite exec_Group in Htake.
      apply exec_Alt_inv in Htake
        as [(s1 & -> & Hp)%exec_lit_inv|(s1 & -> & Hp)%exec_lit_inv];
        apply Hplus in Hp as (Hne & Hname & Hm); split; try done.
      * by apply path_custom.
      * by apply path_user.
    + apply Hplus in Hskip as (Hne & Hname & Hm). split; [|done].
      by apply path_bare.
Qed.

Lemma exec_url_inv input s0 m :
  exec input (Group 0 Resolver.urlRegex) s0 ∅ (λ _ caps, Some caps) = Some m →
  String.length s0 = String.length input
  ∧ ∃ pre path, url_prefix pre ∧ url_path path ∧ s0 = pre +:+ path
                ∧ m !! 2%nat = Some path.
Proof.
  rewrite exec_Group. unfold Resolver.urlRegex. rewrite exec_Seq.
  intros [Hlen He]%exec_Bol_inv. split; [done|].
  rewrite exec_Seq in He. apply exec_lit_inv in He as (s1 & -> & He).
  rewrite exec_Seq in He.
  assert (Hrest : ∀ s caps,
             exec input
               (Seq (lit "://")
                  (Seq (Opt (Group 1 (lit "www.")))
                     (Seq (lit "youtube.com/") PATH))) s caps
               (λ s' caps',
                  Some (<[0%nat := String.substring 0
                           (String.length ("http" +:+ s1) - String.length s')
                           ("http" +:+ s1)]> caps')) = Some m →
             ∃ www path, (www = "" ∨ www = "www.") ∧ url_path path
                         ∧ s = "://" +:+ www +:+ "youtube.com/" +:+ path
                         ∧ m !! 2%nat = Some path).
  { intros s caps Hs. rewrite exec_Seq in Hs.
    apply exec_lit_inv in Hs as (s2 & -> & Hs). rewrite exec_Seq in Hs.
    assert (Hyt : ∀ s caps,
               exec input (Seq (lit "youtube.com/") PATH) s caps
                 (λ s' caps',
                    Some (<[0%nat := String.substring 0
                             (String.length ("http" +:+ s1) - String.length s')
                             ("http" +:+ s1)]> caps')) = Some m →
               ∃ path, url_path path ∧ s = "youtube.com/" +:+ path
                       ∧ m !! 2%nat = Some path).
    { intros s caps' Hy. rewrite exec_Seq in Hy.
      apply exec_lit_inv in Hy as (path & -> & Hy).
      apply exec_path_inv in Hy as [Hpath Hm].
      - by exists path.
      - intros caps'' m' [= <-]. by rewrite lookup_insert_ne. }
    apply exec_Opt_inv in Hs as [Hwww|Hno].
    - rewrite exec_Group in Hwww.
      apply exec_lit_inv in Hwww as (s3 & -> & Hwww).
      apply Hyt in Hwww as (path & Hpath & -> & Hm).
      exists "www.", path. split_and!; [by right|done..].
    - apply Hyt in Hno as (path & Hpath & -> & Hm).
      exists "", path. split_and!; [by left|done..]. }
  apply exec_Opt_inv in He as [Hs|Hno].
  - apply exec_Chr_inv in Hs as (s2 & -> & Hs).
    apply Hrest in Hs as (www & path & [-> | ->] & Hpath & -> & Hm).
    + exists "https://youtube.com/", path. split_and!; [constructor|done..].
    + exists "https://www.youtube.com/", path. split_and!; [constructor|done..].
  - apply Hrest in Hno as (www & path & [-> | ->] & Hpath & -> & Hm).
    + exists "http://youtube.com/", path. split_and!; [constructor|done..].
    + exists "http://www.youtube.com/", path. split_and!; [constructor|done..].
Qed.

(** What an answer of the resolver says about the input. *)
Lemma extractUsername_inv input u :
  Resolver.extractUsername input = Some u →
  (String.prefix "@" input = true ∧ u = input)
  ∨ (∃ pre path, url_prefix pre ∧ url_path path
                 ∧ input = pre +:+ path ∧ u = path).
Proof.
  unfold Resolver.extractUsername, Resolver.startsWith.
  destruct (String.prefix "@" input) eqn:Hat.
  - intros [= <-]. by left.
  - unfold str_match.
    destruct (search input Resolver.urlRegex input) as [m|] eqn:Hs; [|done].
    intros Hm. right.
    apply search_inv in Hs as (pre0 & s0 & Heq & He).
    apply exec_url_inv in He as (Hlen & pre & path & Hpre & Hpath & -> & Hm2).
    assert (pre0 = "") as ->.
    { apply (f_equal String.length) in Heq. rewrite append_length in Heq.
      destruct pre0; [done|]. simpl in Heq. lia. }
    exists pre, path. split_and!; [done..|]. congruence.
Qed.

(** X6. The resolver is characterised completely: it answers [u] exactly
    when the input starts with the marker [@] and [u] is the input itself,
    or the input is one of the four URL beginnings followed by a well-formed
    path and [u] is that whole path, including a [channel/], [c/] or [user/]
    prefix. Every other input has no match. *)
Theorem extractUsername_iff input u :
  Resolver.extractUsername input = Some u
  ↔ (String.prefix "@" input = true ∧ u = input)
    ∨ (∃ pre path, url_prefix pre ∧ url_path path
                   ∧ input = pre +:+ path ∧ u = path).
Proof.
  split; [apply extractUsername_inv|].
  intros [[Hat ->]|(pre & path & Hpre & Hpath & -> & ->)].
  - unfold Resolver.extractUsername, Resolver.startsWith. by rewrite Hat.
  - by apply extractUsername_url.
Qed.

(** ** Looking up the uploads playlist *)

Section ChannelLookup.
Import Api.
Context {W : Type} (fetch_channels : string → M W channels_page).

(** The lookup of src/index.ts always fulfils. *)
Lemma getUploadsChannelId_fulfils apiKey username w :
  ∃ found w',
    IndexTs.getUploadsChannelId fetch_channels apiKey username w
    = (inr found, w').
Proof.
  unfold IndexTs.getUploadsChannelId, try_catch, bind.
  destruct (fetch_channels (channels_url apiKey username) w)
    as [[e|[[[|[[[[[[id|]]|]]|]] rest]|]]] w']; simpl; by eexists _, _.
Qed.

(** The lookup of the persisting server always fulfils, and never with an
    empty id. *)
Lemma persisting_getUploadsChannelId_fulfils apiKey username w :
  ∃ found w',
    Persisting.getUploadsChannelId fetch_channels apiKey username w
    = (inr found, w')
    ∧ (∀ id, found = Some id → truthy id = true).
Proof.
  unfold Persisting.getUploadsChannelId, try_catch, bind.
  destruct (fetch_channels (channels_url apiKey username) w)
    as [[e|[[[|[[[[[[id|]]|]]|]] rest]|]]] w']; simpl;
    try (eexists _, _; split; [done|]; by intros).
  destruct (truthy id) eqn:Hid; eexists _, _; (split; [done|]); by intros ? [= <-].
Qed.

(** X7. Looking up the uploads playlist never rejects in either server, and
    the two servers agree: the persisting server answers what src/index.ts
    answers, except that it turns an empty id into "nothing found"; both
    leave the same world behind. A failed request, a payload without a
    first item and a first item without the nested fields all give nothing. *)
Theorem getUploadsChannelId_agree apiKey username w :
  ∃ found w',
    IndexTs.getUploadsChannelId fetch_channels apiKey username w
      = (inr found, w')
    ∧ Persisting.getUploadsChannelId fetch_channels apiKey username w
      = (inr (if truthy_opt found then found else None), w')
    ∧ (∀ id, found = Some id →
         ∃ item rest details playlists,
           fetch_channels (channels_url apiKey username) w
             = (inr (ChannelsPage (Some (item :: rest))), w')
           ∧ contentDetails item = Some details
           ∧ relatedPlaylists details = Some playlists
           ∧ uploads playlists = Some id).
Proof.
  unfold IndexTs.getUploadsChannelId, Persisting.getUploadsChannelId,
    try_catch, bind.
  destruct (fetch_channels (channels_url apiKey username) w)
    as [[e|[[[|[[[[[[id|]]|]]|]] rest]|]]] w'] eqn:Hf; simpl;
    try (by exists None, w').
  exists (Some id), w'. split_and!; [done..|].
  intros ? [= <-]. by eexists _, _, _, _.
Qed.

End ChannelLookup.

(** ** The report-only handler (src/index.ts) *)

(** A match of the resolver is never the empty string. *)
Lemma extractUsername_truthy input u :
  Resolver.extractUsername input = Some u → truthy u = true.
Proof.
  intros [[Hat ->]|(pre & path & _ & Hpath & _ & ->)]%extractUsername_inv.
  - by destruct input.
  - destruct Hpath as [body last _ _ _|name Hne _|name Hne _|name Hne _];
      try done.
    by destruct name.
Qed.

Section ReportHandler.
Import Api.
Context {W : Type}.
Variable fetch_playlistItems : string → M W playlist_page.
Variable fetch_videos : string → M W stats_page.
Variable fetch_channels : string → M W channels_page.
Variable now : W → Z.

(** X8. The handler of src/index.ts never rejects: whatever the upstream
    does, a run that ends ends with a response. *)
Theorem handler_never_rejects fuel apiKey query w r w' :
  IndexTs.handler fetch_playlistItems fetch_videos fetch_channels now
    fuel apiKey query w = Some (r, w') →
  ∃ resp, r = inr resp.
Proof.
  unfold IndexTs.handler.
  destruct (negb (truthy_opt query)); [intros [= <- _]; by eexists|].
  destruct (negb (truthy_opt _)); [intros [= <- _]; by eexists|].
  destruct (getUploadsChannelId_fulfils fetch_channels apiKey
              (default "" (Resolver.extractUsername (default "" query))) w)
    as (found & w1 & ->).
  destruct (negb (truthy_opt found)); [intros [= <- _]; by eexists|].
  unfold IndexTs.getPlaylistVideos.
  destruct (pages _ _ _ _ _ _) as [[[e|videos] w2]|]; [| |done].
  - intros [= <- _]. by eexists.
  - destruct (0 <? length videos)%nat; [|intros [= <- _]; by eexists].
    destruct (report_sentinel fetch_videos apiKey videos w2)
      as (stats & w3 & -> & _).
    intros [= <- _]. by eexists.
Qed.

(** X9. When a page of the playlist cannot be fetched, at the first page or
    after any number of pages, the handler of src/index.ts answers "No videos
    found in the playlist.": a failed fetch cannot be told from an empty
    playlist, and the videos of the pages fetched before are not reported. *)
Theorem handler_page_failure fuel apiKey q username id w w1 served w2 :
  Resolver.extractUsername q = Some username →
  IndexTs.getUploadsChannelId fetch_channels apiKey username w
    = (inr (Some id), w1) →
  truthy id = true →
  fails_after fetch_playlistItems (playlistItems_url apiKey id) None w1 served w2 →
  (length served < fuel)%nat →
  IndexTs.handler fetch_playlistItems fetch_videos fetch_channels now
    fuel apiKey (Some q) w
  = Some (inr (IndexTs.Text "No videos found in the playlist."), w2).
Proof.
  intros Hq Hup Hid Hfail Hfuel. unfold IndexTs.handler.
  assert (truthy q = true) as Hqt.
  { destruct q; [|done]. by vm_compute in Hq. }
  simpl. rewrite Hqt, Hq. simpl.
  rewrite (extractUsername_truthy _ _ Hq). simpl.
  rewrite Hup. simpl. rewrite Hid. simpl.
  unfold IndexTs.getPlaylistVideos.
  by destruct (pages_fails_after _ _ _ _ _ _ Hfail fuel [] Hfuel) as [e ->].
Qed.

(** X10. When the playlist is fetched completely and is not empty, the
    handler of src/index.ts answers with the report: status "200 OK", one
    entry per playlist video in playlist order, [totalVideos] equal to their
    number, and [elapsedTime] the difference of the clock readings at the end
    and at the start. *)
Theorem handler_report fuel apiKey q username id w w1 videos w2 :
  Resolver.extractUsername q = Some username →
  IndexTs.getUploadsChannelId fetch_channels apiKey username w
    = (inr (Some id), w1) →
  truthy id = true →
  IndexTs.getPlaylistVideos fetch_playlistItems fuel apiKey id w1
    = Some (inr videos, w2) →
  videos ≠ [] →
  ∃ stats w3 entries,
    IndexTs.batchGetVideoStatistics fetch_videos apiKey (videoId <$> videos) w2
      = (inr stats, w3)
    ∧ IndexTs.handler fetch_playlistItems fetch_videos fetch_channels now
        fuel apiKey (Some q) w
      = Some (inr (IndexTs.Report "200 OK" (length videos) (now w3 - now w)
                                  entries), w3)
    ∧ entries = IndexTs.videosWithStats videos stats
    ∧ IndexTs.videoID <$> entries = videoId <$> videos.
Proof.
  intros Hq Hup Hid Hvideos Hne. unfold IndexTs.handler.
  assert (truthy q = true) as Hqt.
  { destruct q; [|done]. by vm_compute in Hq. }
  simpl. rewrite Hqt, Hq. simpl.
  rewrite (extractUsername_truthy _ _ Hq). simpl.
  rewrite Hup. simpl. rewrite Hid. simpl. rewrite Hvideos.
  destruct videos as [|v videos]; [done|].
  destruct (report_sentinel fetch_videos apiKey (v :: videos) w2)
    as (stats & w3 & Hstats & _ & Hids & _).
  exists stats, w3, (IndexTs.videosWithStats (v :: videos) stats).
  split_and!; [done| |done..].
  change (0 <? length (v :: videos))%nat with true. cbv iota.
  rewrite Hstats.
  unfold IndexTs.videosWithStats at 1. by rewrite length_fmap.
Qed.

End ReportHandler.

(** ** Persisting videos and statistics, in general *)

Section PersistMore.
Import Api Persisting.
Context {W : Type}.
Variable select_videos : M W (list (Z * string)).
Variable insert_videos : list video_row → M W (list video_record).
Variable insert_statistics : list stats_row → M W (list stats_record).

Lemma set_all_lookup_notin (pairs : list (string * Z)) (m : gmap string Z) k :
  k ∉ pairs.*1 → set_all pairs m !! k = m !! k.
Proof.
  unfold set_all. revert m.
  induction pairs as [|[k' v] pairs IH]; intros m Hk; simpl in *; [done|].
  apply not_elem_of_cons in Hk as [Hne Hk].
  rewrite IH by done. by rewrite lookup_insert_ne.
Qed.

Lemma inserted_ids (rows : list video_row) (recs : list video_record) :
  Forall2 (λ row rec, rec_videoId rec = row_videoId row) rows recs →
  (fst ∘ (λ v, (rec_videoId v, rec_id v))) <$> recs = row_videoId <$> rows.
Proof.
  induction 1 as [|row rec rows recs Hrr _ IH]; [done|].
  rewrite !fmap_cons, IH. simpl. by rewrite Hrr.
Qed.

Lemma stats_row_parameters (row : stats_row) : itemParameters row = 4.
Proof. by destruct row as [[?|] ? ? ?]. Qed.

(** X11. When [batchInsertVideos] returns normally and the insert operation
    answers every row with a record of the same external video id, the map
    it returns has an entry for the id of every input row, and for a video
    the store already knew the entry is the stored one (nothing inserted
    overrides it). *)
Theorem batchInsertVideos_map_covers videosData w m w' :
  (∀ c st r st',
     insert_videos c st = (inr r, st') →
     Forall2 (λ row rec, rec_videoId rec = row_videoId row) c r) →
  batchInsertVideos select_videos insert_videos videosData w = (inr m, w') →
  ∃ existing w1,
    select_videos w = (inr existing, w1)
    ∧ (∀ row, row ∈ videosData → is_Some (m !! row_videoId row))
    ∧ (∀ vid, vid ∈ existing.*2 →
         m !! vid = set_all ((λ v, (v.2, v.1)) <$> existing) ∅ !! vid).
Proof.
  intros Hins. unfold batchInsertVideos, bind.
  destruct (select_videos w) as [[e|existing] w1] eqn:Hsel; [discriminate|].
  rewrite new_rows_filter.
  destruct (autochunk _ _ _ _) as [[e|inserted] w2] eqn:Hauto; [discriminate|].
  intros [= <- <-].
  apply (autochunk_answers (λ row rec, rec_videoId rec = row_videoId row))
    in Hauto; [|done].
  assert (((λ v, (rec_videoId v, rec_id v)) <$> inserted).*1
          = row_videoId
              <$> filter (λ row, row_videoId row ∉ existing.*2) videosData)
    as Hids.
  { rewrite <- list_fmap_compose. by apply inserted_ids. }
  assert (∀ vid, is_Some (set_all ((λ v, (v.2, v.1)) <$> existing) ∅ !! vid)
                 ↔ vid ∈ existing.*2) as Hold.
  { intros vid. rewrite set_all_is_Some, <- list_fmap_compose.
    split; [intros [?|[x Hx]]; [done|by rewrite lookup_empty in Hx]|by left]. }
  exists existing, w1. split_and!; [done| |].
  - intros row Hrow. apply set_all_is_Some. rewrite Hids, Hold.
    destruct (decide (row_videoId row ∈ existing.*2)) as [?|Hnew]; [by right|].
    left. apply list_elem_of_fmap. exists row. split; [done|].
    by apply list_elem_of_filter.
  - intros vid Hvid. apply set_all_lookup_notin. rewrite Hids.
    intros (row & -> & Hrow)%list_elem_of_fmap.
    by apply list_elem_of_filter in Hrow as [Hnew _].
Qed.

(** X12. Videos are inserted twenty at a time: in every run, every batch the
    insert operation receives holds between 1 and 20 rows, and every batch
    that is followed by another one holds exactly 20. *)
Theorem batchInsertVideos_batches videosData w r log w' pre c post :
  batchInsertVideos (unspied (T:=video_row) select_videos) (spy insert_videos)
    videosData ([], w) = (r, (log, w')) →
  log = pre ++ c :: post →
  (1 ≤ length c ≤ 20)%nat ∧ (post ≠ [] → length c = 20%nat).
Proof.
  unfold batchInsertVideos, bind, unspied at 1.
  destruct (select_videos w) as [[e|existing] w1] eqn:Hsel.
  - intros [= <- <- <-] Hlog. by destruct pre.
  - destruct (autochunk _ _ _ _) as [r1 [log1 w2]] eqn:Hauto.
    intros Hr Hlog.
    assert (log1 = log) as -> by (by destruct r1; injection Hr as _ <- _).
    destruct (autochunk_uniform_log _ _ 5 _ _ _ _ pre c post
                ltac:(lia) ltac:(unfold D1_MAX_PARAMETERS; lia)
                ltac:(apply Forall_forall; intros; apply video_row_parameters)
                Hauto Hlog) as (Hne & Hle & Hfull).
    change (D1_MAX_PARAMETERS / 5) with 20 in *.
    destruct c; [done|]. simpl in *. split; [lia|]. intros Hp.
    specialize (Hfull Hp). lia.
Qed.

(** X13. Statistics are inserted twenty-five at a time and in order: in
    every run the rows the insert operation has received are an initial part
    of the rows built from [statsData] (all of them when the call returns
    normally), every batch holds between 1 and 25 rows, and every batch that
    is followed by another one holds exactly 25. *)
Theorem batchInsertVideoStatistics_batches statsData videoIdMap w r log w' :
  batchInsertVideoStatistics (spy insert_statistics) statsData videoIdMap ([], w)
    = (r, (log, w')) →
  let rows :=
    (λ stat, StatsRow (videoIdMap !! sd_videoId stat)
                      (or_zero (sd_viewCount stat))
                      (or_zero (sd_likeCount stat))
                      (or_zero (sd_commentCount stat))) <$> statsData in
  concat log `prefix_of` rows
  ∧ (∀ res, r = inr res → concat log = rows)
  ∧ ∀ pre c post,
      log = pre ++ c :: post →
      (1 ≤ length c ≤ 25)%nat ∧ (post ≠ [] → length c = 25%nat).
Proof.
  unfold batchInsertVideoStatistics, bind.
  destruct (autochunk _ _ _ _) as [r1 [log1 w2]] eqn:Hauto.
  intros Hr.
  assert (log1 = log) as -> by (by destruct r1; injection Hr as _ <- _).
  simpl. pose proof Hauto as Hpassed.
  apply autochunk_spy_passed in Hpassed as [Hprefix Hall].
  split_and!; [done| |].
  - intros res ->. destruct r1 as [e|res1]; [discriminate|]. by eapply Hall.
  - intros pre c post Hlog.
    destruct (autochunk_uniform_log _ _ 4 _ _ _ _ pre c post
                ltac:(lia) ltac:(unfold D1_MAX_PARAMETERS; lia)
                ltac:(apply Forall_forall; intros; apply stats_row_parameters)
                Hauto Hlog) as (Hne & Hle & Hfull).
    change (D1_MAX_PARAMETERS / 4) with 25 in *.
    destruct c; [done|]. simpl in *. split; [lia|]. intros Hp.
    specialize (Hfull Hp). lia.
Qed.

(** [x || 0] is never a falsy value other than the number 0. *)
Lemma or_zero_defined (x : prim) :
  or_zero x ≠ PUndefined ∧ or_zero x ≠ PNull ∧ or_zero x ≠ PString "".
Proof.
  destruct x as [| |s|n]; simpl; try done.
  - by destruct s.
  - by destruct (n =? 0).
Qed.

(** X14. No statistics row ever reaches the store with a missing count:
    whatever the caller passes, each of the three counts of every row handed
    to the insert operation is neither undefined nor null nor the empty
    string (a missing count has become the number 0). *)
Theorem batchInsertVideoStatistics_counts statsData videoIdMap w r log w' :
  batchInsertVideoStatistics (spy insert_statistics) statsData videoIdMap ([], w)
    = (r, (log, w')) →
  Forall (Forall (λ row,
            ∀ x, x ∈ [sr_viewCount row; sr_likeCount row; sr_commentCount row] →
                 x ≠ PUndefined ∧ x ≠ PNull ∧ x ≠ PString "")) log.
Proof.
  unfold batchInsertVideoStatistics, bind.
  destruct (autochunk _ _ _ _) as [r1 [log1 w2]] eqn:Hauto.
  intros Hr.
  assert (log1 = log) as -> by (by destruct r1; injection Hr as _ <- _).
  apply autochunk_spy_passed in Hauto as [Hprefix _].
  apply Forall_concat. eapply Forall_prefix; [done|].
  apply Forall_fmap, Forall_forall. intros stat _ x Hx. simpl in Hx.
  apply elem_of_cons in Hx as [->|Hx]; [apply or_zero_defined|].
  apply elem_of_cons in Hx as [->|Hx]; [apply or_zero_defined|].
  apply elem_of_cons in Hx as [->|Hx]; [apply or_zero_defined|].
  by apply elem_of_nil in Hx.
Qed.

(** X15. Statistics find their videos: after a normal return of
    [batchInsertVideos] with an insert operation that answers every row with
    a record of the same external video id, every statistics row built for a
    statistic of one of those videos carries a defined database id when it is
    handed to the insert operation. *)
Theorem statistics_rows_resolved videosData statsData w m w1 r log w2 :
  (∀ c st r st',
     insert_videos c st = (inr r, st') →
     Forall2 (λ row rec, rec_videoId rec = row_videoId row) c r) →
  batchInsertVideos select_videos insert_videos videosData w = (inr m, w1) →
  Forall (λ stat, sd_videoId stat ∈ row_videoId <$> videosData) statsData →
  batchInsertVideoStatistics (spy insert_statistics) statsData m ([], w1)
    = (r, (log, w2)) →
  Forall (Forall (λ row, is_Some (sr_videoId row))) log.
Proof.
  intros Hins Hvideos Hstats.
  assert (∀ row, row ∈ videosData → is_Some (m !! row_videoId row)) as Hcover.
  { revert Hvideos. unfold batchInsertVideos, bind.
    destruct (select_videos w) as [[e|existing] w0] eqn:Hsel; [discriminate|].
    rewrite new_rows_filter.
    destruct (autochunk _ _ _ _) as [[e|inserted] w0'] eqn:Hauto;
      [discriminate|].
    intros [= <- <-] row Hrow.
    apply (autochunk_answers (λ row rec, rec_videoId rec = row_videoId row))
      in Hauto; [|done].
    apply set_all_is_Some.
    destruct (decide (row_videoId row ∈ existing.*2)) as [Hold|Hnew].
    - right. apply set_all_is_Some. left. by rewrite <- list_fmap_compose.
    - left. rewrite <- list_fmap_compose, (inserted_ids _ _ Hauto).
      apply list_elem_of_fmap. exists row. split; [done|].
      by apply list_elem_of_filter. }
  unfold batchInsertVideoStatistics, bind.
  destruct (autochunk _ _ _ _) as [r1 [log1 w3]] eqn:Hauto.
  intros Hr.
  assert (log1 = log) as -> by (by destruct r1; injection Hr as _ <- _).
  apply autochunk_spy_passed in Hauto as [Hprefix _].
  apply Forall_concat. eapply Forall_prefix; [done|].
  apply Forall_fmap. eapply Forall_impl; [done|]. simpl.
  intros stat (row & -> & Hrow)%list_elem_of_fmap. by apply Hcover.
Qed.

End PersistMore.

(** ** The two handlers *)

Section Handlers.
Import Api.
Context {W : Type}.
Variable fetch_playlistItems : string → M W playlist_page.
Variable fetch_videos : string → M W stats_page.
Variable select_videos : M W (list (Z * string)).
Variable insert_videos : list Persisting.video_row → M W (list Persisting.video_record).
Variable fetch_channels : string → M W channels_page.
Variable now : W → Z.
Variable select_channel : string → M W (option Persisting.channel_record).
Variable insert_channel : string → M W (list Persisting.channel_record).
Variable insert_statistics
  : list Persisting.stats_row → M W (list Persisting.stats_record).

(** X16. Input that is missing, empty or not accepted by the resolver is
    answered on the spot by both handlers, with the same sentence, and
    without a single request to the upstream or the store: the world is left
    as it was. A missing or empty [url] gives "URL or username is missing",
    any other input without a match gives "Invalid input (...)". *)
Theorem bad_input_is_answered_locally fuel apiKey query w :
  Resolver.extractUsername (default "" query) = None →
  ∃ body,
    body = (if truthy_opt query
            then "Invalid input (either a YouTube URL or a username is required)"
            else "URL or username is missing")
    ∧ IndexTs.handler fetch_playlistItems fetch_videos fetch_channels now
        fuel apiKey query w
      = Some (inr (IndexTs.Text body), w)
    ∧ Persisting.handler fetch_playlistItems fetch_videos select_videos
        insert_videos fetch_channels now select_channel insert_channel
        insert_statistics fuel apiKey query w
      = Some (inr (Persisting.Text body), w).
Proof.
  intros Hq. eexists. split; [done|].
  unfold IndexTs.handler, Persisting.handler. rewrite Hq.
  by destruct (truthy_opt query).
Qed.

(** X17. The persisting handler does not swallow a failed page request: when
    a page of the playlist cannot be fetched, at the first page or after any
    number of pages, the handler rejects, before anything is written to the
    store. *)
Theorem persisting_handler_page_failure
    fuel apiKey q username id w w1 served w2 :
  Resolver.extractUsername q = Some username →
  Persisting.getUploadsChannelId fetch_channels apiKey username w
    = (inr (Some id), w1) →
  fails_after fetch_playlistItems (playlistItems_url apiKey id) None w1 served w2 →
  (length served < fuel)%nat →
  ∃ e,
    Persisting.handler fetch_playlistItems fetch_videos select_videos
      insert_videos fetch_channels now select_channel insert_channel
      insert_statistics fuel apiKey (Some q) w
    = Some (inl e, w2).
Proof.
  intros Hq Hup Hfail Hfuel. unfold Persisting.handler.
  assert (truthy q = true) as Hqt.
  { destruct q; [|done]. by vm_compute in Hq. }
  simpl. rewrite Hqt, Hq. simpl.
  rewrite (extractUsername_truthy _ _ Hq). simpl. rewrite Hup.
  destruct (persisting_getUploadsChannelId_fulfils fetch_channels apiKey
              username w) as (found & w1' & Hup' & Hid).
  rewrite Hup in Hup'. injection Hup' as <- <-.
  simpl. rewrite (Hid id eq_refl). simpl.
  unfold Persisting.getPlaylistVideos.
  destruct (pages_fails_after _ _ _ _ _ _ Hfail fuel [] Hfuel) as [e ->].
  by exists e.
Qed.

(** X18. Whenever the persisting handler answers with a report, the input
    was accepted, the uploads playlist was found and fetched completely and
    was not empty; the report has status "200 OK", one entry per playlist
    video in playlist order, each under the resolved channel name,
    [totalVideos] equal to their number, and [elapsedTime] the difference of
    the clock readings at the end and at the start. *)
Theorem persisting_handler_report fuel apiKey query w st n t entries w' :
  Persisting.handler fetch_playlistItems fetch_videos select_videos
    insert_videos fetch_channels now select_channel insert_channel
    insert_statistics fuel apiKey query w
  = Some (inr (Persisting.Report st n t entries), w') →
  ∃ q username id w1 videos w2,
    query = Some q
    ∧ Resolver.extractUsername q = Some username
    ∧ Persisting.getUploadsChannelId fetch_channels apiKey username w
      = (inr (Some id), w1)
    ∧ Persisting.getPlaylistVideos fetch_playlistItems fuel apiKey id w1
      = Some (inr videos, w2)
    ∧ videos ≠ []
    ∧ st = "200 OK" ∧ n = length videos ∧ t = now w' - now w
    ∧ Persisting.videoID <$> entries = videoId <$> videos
    ∧ Forall (λ e, Persisting.channelName e = username) entries.
Proof.
  unfold Persisting.handler.
  destruct query as [q|]; [|discriminate]. simpl.
  destruct (truthy q); [|discriminate]. simpl.
  destruct (Resolver.extractUsername q) as [username|] eqn:Hq; [|discriminate].
  simpl. destruct (truthy username); [|discriminate]. simpl.
  destruct (Persisting.getUploadsChannelId _ _ _ _) as [[e|[id|]] w1] eqn:Hup;
    [discriminate| |discriminate].
  simpl. destruct (truthy id); [|discriminate]. simpl.
  destruct (Persisting.getPlaylistVideos _ _ _ _ _)
    as [[[e|videos] w2]|] eqn:Hvideos; [discriminate| |discriminate].
  destruct (Nat.eqb_spec (length videos) 0) as [|Hlen]; [discriminate|].
  unfold bind.
  destruct (Persisting.batchGetVideoStatistics _ _ _ _) as [[e|stats] w3];
    [discriminate|].
  destruct (Persisting.insertChannel _ _ _ _) as [[e|[channel|]] w4];
    [discriminate| |discriminate].
  destruct (Persisting.batchInsertVideos _ _ _ _) as [[e|videoIdMap] w5];
    [discriminate|].
  destruct (Persisting.batchInsertVideoStatistics _ _ _ _) as [[e|ins] w6];
    [discriminate|].
  intros [= <- <- <- <- <-].
  exists q, username, id, w1, videos, w2.
  unfold Persisting.videosWithStats.
  split_and!; try done.
  - intros ->. by apply Hlen.
  - by rewrite length_fmap.
  - rewrite <- list_fmap_compose. by apply list_fmap_ext.
  - by apply Forall_fmap, Forall_forall.
Qed.

End Handlers.

(** *** The further properties on concrete inputs *)

Lemma imap_Forall2 {A B} (R : A → B → Prop) (f : nat → A → B) (l : list A) :
  (∀ i x, R x (f i x)) → Forall2 R l (imap f l).
Proof.
  revert f. induction l as [|x l IH]; intros f Hf; simpl; constructor.
  - apply Hf.
  - apply IH. intros i y. apply Hf.
Qed.

(** The in-memory table answers every stored row with a record of the same
    external video id. *)
Lemma table_insert_answers c st r st' :
  Stub.table_insert c st = (inr r, st') →
  Forall2 (λ row rec, Persisting.rec_videoId rec = Persisting.row_videoId row)
    c r.
Proof.
  unfold Stub.table_insert. destruct (negb _); [discriminate|].
  destruct (_ && _); [|discriminate].
  intros [= <- _]. by apply imap_Forall2.
Qed.

Lemma handler_never_rejects_witness :
  ∃ resp,
    (inr (IndexTs.Text "No videos found in the playlist.")
       : exn + IndexTs.response) = inr resp.
Proof.
  apply (handler_never_rejects Stub.second_page_fails Stub.first_group_fails
           Stub.channel_found (λ _, 0) 5 "KEY" (Some "@foo") ()
           (inr (IndexTs.Text "No videos found in the playlist.")) ()).
  vm_compute. reflexivity.
Defined.

Lemma handler_page_failure_witness :
  IndexTs.handler Stub.second_page_fails Stub.first_group_fails
    Stub.channel_found (λ _, 0) 5 "KEY" (Some "@foo") ()
  = Some (inr (IndexTs.Text "No videos found in the playlist."), ()).
Proof.
  apply (handler_page_failure Stub.second_page_fails Stub.first_group_fails
           Stub.channel_found (λ _, 0) 5 "KEY" "@foo" "@foo" "UU" () ()
           [Stub.items_of "a" 2] ()).
  - reflexivity.
  - vm_compute. reflexivity.
  - reflexivity.
  - eapply Api.fails_later with (t := "P2"); [vm_compute; reflexivity|reflexivity|].
    eapply Api.fails_rejected. vm_compute. reflexivity.
  - simpl. lia.
Defined.

Lemma handler_report_witness :
  let videos :=
    Api.to_video <$> Stub.items_of "a" 50 ++ Stub.items_of "b" 50
                       ++ Stub.items_of "c" 10 in
  ∃ stats w3 entries,
    IndexTs.batchGetVideoStatistics Stub.empty_count "KEY"
      (Api.videoId <$> videos) () = (inr stats, w3)
    ∧ IndexTs.handler Stub.three_pages Stub.empty_count Stub.channel_found
        (λ _, 0) 3 "KEY" (Some "@foo") ()
      = Some (inr (IndexTs.Report "200 OK" (length videos) (0 - 0) entries), w3)
    ∧ entries = IndexTs.videosWithStats videos stats
    ∧ IndexTs.videoID <$> entries = Api.videoId <$> videos.
Proof.
  apply (handler_report Stub.three_pages Stub.empty_count Stub.channel_found
           (λ _, 0) 3 "KEY" "@foo" "@foo" "UU" () ()
           (Api.to_video <$> Stub.items_of "a" 50 ++ Stub.items_of "b" 50
                               ++ Stub.items_of "c" 10) ()).
  - reflexivity.
  - vm_compute. reflexivity.
  - reflexivity.
  - vm_compute. reflexivity.
  - discriminate.
Defined.

Lemma batchInsertVideos_map_covers_witness :
  let m :=
    Persisting.set_all
      ((λ i : nat, ("v" +:+ pretty i, Z.of_nat (i + 1))) <$> seq 0 25) ∅ in
  ∃ existing w1,
    Stub.table_select Stub.stored_5 = (inr existing, w1)
    ∧ (∀ row, row ∈ Stub.rows_25 → is_Some (m !! Persisting.row_videoId row))
    ∧ (∀ vid, vid ∈ existing.*2 →
         m !! vid
         = Persisting.set_all ((λ v, (v.2, v.1)) <$> existing) ∅ !! vid).
Proof.
  apply (batchInsertVideos_map_covers Stub.table_select Stub.table_insert
           Stub.rows_25 Stub.stored_5
           (Persisting.set_all
              ((λ i : nat, ("v" +:+ pretty i, Z.of_nat (i + 1))) <$> seq 0 25) ∅)
           (Stub.stored_5
              ++ imap (λ i r, Persisting.VideoRecord (Z.of_nat (5 + i + 1))
                                (Persisting.row_videoId r)
                                (Persisting.row_channelId r)
                                (Persisting.row_title r) (Persisting.row_url r)
                                (Persisting.row_thumbnailUrl r))
                      (drop 5 Stub.rows_25))).
  - apply table_insert_answers.
  - vm_compute. reflexivity.
Defined.

Lemma batchInsertVideos_batches_witness :
  (1 ≤ length (take 20 Stub.rows_25) ≤ 20)%nat
  ∧ ([drop 20 Stub.rows_25] ≠ [] → length (take 20 Stub.rows_25) = 20%nat).
Proof.
  apply (batchInsertVideos_batches Stub.table_select Stub.table_insert
           Stub.rows_25 []
           (Persisting.batchInsertVideos
              (unspied (T:=Persisting.video_row) Stub.table_select)
              (spy Stub.table_insert) Stub.rows_25 ([], [])).1
           [take 20 Stub.rows_25; drop 20 Stub.rows_25]
           (Persisting.batchInsertVideos
              (unspied (T:=Persisting.video_row) Stub.table_select)
              (spy Stub.table_insert) Stub.rows_25 ([], [])).2.2
           [] (take 20 Stub.rows_25) [drop 20 Stub.rows_25]).
  - vm_compute. reflexivity.
  - reflexivity.
Defined.

Lemma batchInsertVideoStatistics_batches_witness :
  let run :=
    Persisting.batchInsertVideoStatistics (spy Stub.stats_insert)
      (Stub.stats_of 30) ∅ ([], ()) in
  let rows :=
    (λ stat,
       Persisting.StatsRow
         ((∅ : gmap string Z) !! Persisting.sd_videoId stat)
         (Persisting.or_zero (Persisting.sd_viewCount stat))
         (Persisting.or_zero (Persisting.sd_likeCount stat))
         (Persisting.or_zero (Persisting.sd_commentCount stat)))
      <$> Stub.stats_of 30 in
  concat run.2.1 `prefix_of` rows
  ∧ (∀ res, run.1 = inr res → concat run.2.1 = rows)
  ∧ ∀ pre c post,
      run.2.1 = pre ++ c :: post →
      (1 ≤ length c ≤ 25)%nat ∧ (post ≠ [] → length c = 25%nat).
Proof.
  intros run.
  apply (batchInsertVideoStatistics_batches Stub.stats_insert
           (Stub.stats_of 30) ∅ () run.1 run.2.1 run.2.2).
  vm_compute. reflexivity.
Defined.

Lemma batchInsertVideoStatistics_counts_witness :
  let run :=
    Persisting.batchInsertVideoStatistics (spy Stub.stats_insert)
      (Stub.stats_of 30) ∅ ([], ()) in
  length run.2.1 = 2%nat
  ∧ Forall (Forall (λ row,
              ∀ x, x ∈ [Persisting.sr_viewCount row; Persisting.sr_likeCount row;
                        Persisting.sr_commentCount row] →
                   x ≠ PUndefined ∧ x ≠ PNull ∧ x ≠ PString "")) run.2.1.
Proof.
  intros run. split; [vm_compute; reflexivity|].
  apply (batchInsertVideoStatistics_counts Stub.stats_insert
           (Stub.stats_of 30) ∅ () run.1 run.2.1 run.2.2).
  vm_compute. reflexivity.
Defined.

Lemma statistics_rows_resolved_witness :
  let inserted :=
    Persisting.batchInsertVideos Stub.table_select Stub.table_insert
      Stub.rows_25 [] in
  let run :=
    Persisting.batchInsertVideoStatistics
      (spy (λ rows, Stub.ignoring (Stub.stats_insert rows)))
      (Stub.stats_of 25)
      (Persisting.set_all
         ((λ i : nat, ("v" +:+ pretty i, Z.of_nat (i + 1))) <$> seq 0 25) ∅)
      ([], inserted.2) in
  length run.2.1 = 1%nat
  ∧ Forall (Forall (λ row, is_Some (Persisting.sr_videoId row))) run.2.1.
Proof.
  intros inserted run. split; [vm_compute; reflexivity|].
  apply (statistics_rows_resolved Stub.table_select Stub.table_insert
           (λ rows, Stub.ignoring (Stub.stats_insert rows))
           Stub.rows_25 (Stub.stats_of 25) []
           (Persisting.set_all
              ((λ i : nat, ("v" +:+ pretty i, Z.of_nat (i + 1))) <$> seq 0 25) ∅)
           inserted.2 run.1 run.2.1 run.2.2).
  - apply table_insert_answers.
  - vm_compute. reflexivity.
  - apply Forall_forall. intros stat Hstat.
    apply list_elem_of_fmap in Hstat as (i & -> & Hi).
    apply list_elem_of_fmap. exists (Stub.row_of ("v" +:+ pretty i)).
    split; [reflexivity|]. apply list_elem_of_fmap. by exists i.
  - vm_compute. reflexivity.
Defined.

Lemma bad_input_is_answered_locally_witness :
  ∃ body,
    body = "Invalid input (either a YouTube URL or a username is required)"
    ∧ IndexTs.handler Stub.one_page Stub.empty_count Stub.channel_found
        (λ _, 0) 3 "KEY" (Some "https://example.com/x") ()
      = Some (inr (IndexTs.Text body), ())
    ∧ Persisting.handler Stub.one_page Stub.empty_count
        (ret []) (λ _, ret []) Stub.channel_found (λ _, 0)
        Stub.no_channel Stub.channel_insert Stub.stats_insert
        3 "KEY" (Some "https://example.com/x") ()
      = Some (inr (Persisting.Text body), ()).
Proof.
  apply (bad_input_is_answered_locally Stub.one_page Stub.empty_count
           (ret []) (λ _, ret []) Stub.channel_found (λ _, 0)
           Stub.no_channel Stub.channel_insert Stub.stats_insert
           3 "KEY" (Some "https://example.com/x") ()).
  vm_compute. reflexivity.
Defined.

Lemma persisting_handler_page_failure_witness :
  ∃ e,
    Persisting.handler Stub.second_page_fails Stub.empty_count
      (ret []) (λ _, ret []) Stub.channel_found (λ _, 0)
      Stub.no_channel Stub.channel_insert Stub.stats_insert
      5 "KEY" (Some "@foo") ()
    = Some (inl e, ()).
Proof.
  apply (persisting_handler_page_failure Stub.second_page_fails Stub.empty_count
           (ret []) (λ _, ret []) Stub.channel_found (λ _, 0)
           Stub.no_channel Stub.channel_insert Stub.stats_insert
           5 "KEY" "@foo" "@foo" "UU" () () [Stub.items_of "a" 2] ()).
  - reflexivity.
  - vm_compute. reflexivity.
  - eapply Api.fails_later with (t := "P2"); [vm_compute; reflexivity|reflexivity|].
    eapply Api.fails_rejected. vm_compute. reflexivity.
  - simpl. lia.
Defined.

Lemma persisting_handler_report_witness :
  ∃ q username id w1 videos w2,
    Some "@foo" = Some q
    ∧ Resolver.extractUsername q = Some username
    ∧ Persisting.getUploadsChannelId
        (λ u, Stub.ignoring (Stub.channel_found u)) "KEY" username
        ([] : list Persisting.video_record)
      = (inr (Some id), w1)
    ∧ Persisting.getPlaylistVideos
        (λ u, Stub.ignoring (Stub.one_page u)) 3 "KEY" id w1
      = Some (inr videos, w2)
    ∧ videos ≠ []
    ∧ "200 OK" = "200 OK" ∧ 2%nat = length videos
    ∧ 2 = Stub.table_clock
            ((Stub.table_insert [Stub.row_of "a0"; Stub.row_of "a1"] []).2)
          - Stub.table_clock []
    ∧ Persisting.videoID
        <$> Persisting.videosWithStats "@foo"
              (Api.to_video <$> Stub.items_of "a" 2) []
      = Api.videoId <$> videos
    ∧ Forall (λ e, Persisting.channelName e = username)
        (Persisting.videosWithStats "@foo"
           (Api.to_video <$> Stub.items_of "a" 2) []).
Proof.
  apply (persisting_handler_report
           (λ u, Stub.ignoring (Stub.one_page u))
           (λ u, Stub.ignoring (Stub.empty_count u))
           Stub.table_select Stub.table_insert
           (λ u, Stub.ignoring (Stub.channel_found u)) Stub.table_clock
           Stub.no_channel Stub.channel_insert
           (λ rows, Stub.ignoring (Stub.stats_insert rows))
           3 "KEY" (Some "@foo") [] "200 OK" 2 2
           (Persisting.videosWithStats "@foo"
              (Api.to_video <$> Stub.items_of "a" 2) [])
           ((Stub.table_insert [Stub.row_of "a0"; Stub.row_of "a1"] []).2)).
  vm_compute. reflexivity.
Defined.

(** ** Paging and grouping, in general *)

Section PagingMore.
Import Api.
Context {W : Type} (fetch : string → M W playlist_page).

Lemma pages_serves url token w served w' :
  serves fetch url token w served w' →
  ∀ fuel videos, (length served ≤ fuel)%nat →
    pages fetch fuel url token videos w
    = Some (inr (videos ++ (to_video <$> concat served)), w').
Proof.
  induction 1 as [token w items next w' Hf Hnext
                 |token w items t w1 served w' Hf Ht _ IH];
    intros [|fuel] videos Hfuel; simpl in Hfuel; try lia;
    rewrite pages_S, Hf; cbn [page_items nextPageToken].
  - simpl. rewrite app_nil_r.
    destruct next as [t|]; [|done]. simpl in Hnext. by rewrite Hnext.
  - rewrite Ht, IH by lia. simpl. by rewrite fmap_app, app_assoc.
Qed.

(** X19. Whatever the number of pages: when every page request is answered
    and the chain of tokens ends, both servers return the videos of all
    pages, in page order and in the order within each page, once the fuel
    covers the number of pages. A page that names an empty token ends the
    chain like a page that names none. *)
Theorem getPlaylistVideos_all_pages apiKey playlistId w served w' fuel :
  serves fetch (playlistItems_url apiKey playlistId) None w served w' →
  (length served ≤ fuel)%nat →
  IndexTs.getPlaylistVideos fetch fuel apiKey playlistId w
    = Some (inr (to_video <$> concat served), w')
  ∧ Persisting.getPlaylistVideos fetch fuel apiKey playlistId w
    = Some (inr (to_video <$> concat served), w').
Proof.
  intros Hserves Hfuel.
  unfold IndexTs.getPlaylistVideos, Persisting.getPlaylistVideos.
  by rewrite (pages_serves _ _ _ _ _ Hserves fuel [] Hfuel).
Qed.

(** X20. The loop has no bound on the number of pages: against an upstream
    that answers every request with a page naming a non-empty next token,
    neither server's [getPlaylistVideos] returns, however many iterations it
    is given. *)
Theorem getPlaylistVideos_endless apiKey playlistId w fuel :
  (∀ url w, ∃ items t w',
     fetch url w = (inr (PlaylistPage (Some items) (Some t)), w')
     ∧ truthy t = true) →
  IndexTs.getPlaylistVideos fetch fuel apiKey playlistId w = None
  ∧ Persisting.getPlaylistVideos fetch fuel apiKey playlistId w = None.
Proof.
  intros Hmore.
  assert (∀ fuel url token videos w,
            pages fetch fuel url token videos w = None) as Hnever.
  { clear fuel w. induction fuel as [|fuel IH]; intros url token videos w;
      [done|].
    rewrite pages_S.
    destruct (Hmore (page_url url token) w) as (items & t & w' & -> & Ht).
    cbn [page_items nextPageToken]. rewrite Ht. apply IH. }
  unfold IndexTs.getPlaylistVideos, Persisting.getPlaylistVideos.
  by rewrite Hnever.
Qed.

End PagingMore.

Section GroupingMore.
Import Api.
Context {W : Type} (fetch : string → M W stats_page).

(** The requests of a list of group calls, as the recorder sees them. *)
Lemma all_recording_persisting apiKey groups log w :
  ∃ results w',
    all (Persisting.getVideoStatistics (recording fetch) apiKey <$> groups)
        (log, w)
    = (inr results, (log ++ (videos_url apiKey <$> groups), w')).
Proof.
  revert log w. induction groups as [|g groups IH]; intros log w.
  - eexists _, _. simpl. by rewrite app_nil_r.
  - rewrite fmap_cons. cbn [all]. unfold bind.
    unfold Persisting.getVideoStatistics at 1, try_catch, bind, recording at 1.
    destruct (fetch (videos_url apiKey g) w) as [[e|data] w1]; simpl;
      destruct (IH (log ++ [videos_url apiKey g]) w1) as (results & w2 & ->);
      eexists _, _; by rewrite <- app_assoc.
Qed.

Lemma all_recording_index apiKey groups log w :
  ∃ results w',
    all (IndexTs.getVideoStatistics (recording fetch) apiKey <$> groups)
        (log, w)
    = (inr results, (log ++ (videos_url apiKey <$> groups), w')).
Proof.
  revert log w. induction groups as [|g groups IH]; intros log w.
  - eexists _, _. simpl. by rewrite app_nil_r.
  - rewrite fmap_cons. cbn [all]. unfold bind.
    unfold IndexTs.getVideoStatistics at 1, try_catch, bind, recording at 1.
    destruct (fetch (videos_url apiKey g) w) as [[e|[[[|item items]|]]] w1];
      simpl;
      destruct (IH (log ++ [videos_url apiKey g]) w1) as (results & w2 & ->);
      eexists _, _; by rewrite <- app_assoc.
Qed.

(** X21. Statistics are requested in consecutive groups of 50 ids: in both
    servers the requests made for a list of ids are exactly the statistics
    URLs of a sequence of groups that, put together, give back the list; no
    group is empty, none holds more than 50 ids, and every group but the
    last holds exactly 50. In particular no request is made for no ids, and
    a failing group does not stop the requests for the groups after it. *)
Theorem statistics_requests apiKey videoIds w :
  ∃ groups,
    concat groups = videoIds
    ∧ (∀ pre g post,
         groups = pre ++ g :: post →
         (1 ≤ length g ≤ 50)%nat ∧ (post ≠ [] → length g = 50%nat))
    ∧ (IndexTs.batchGetVideoStatistics (recording fetch) apiKey videoIds
         ([], w)).2.1
      = videos_url apiKey <$> groups
    ∧ (Persisting.batchGetVideoStatistics (recording fetch) apiKey videoIds
         ([], w)).2.1
      = videos_url apiKey <$> groups.
Proof.
  exists (slices (length videoIds) 50 0 videoIds).
  split_and!.
  - apply slices_concat.
  - intros pre g post. apply slices_shape.
  - unfold IndexTs.batchGetVideoStatistics, bind.
    by destruct (all_recording_index apiKey
                   (slices (length videoIds) 50 0 videoIds) [] w)
      as (results & w' & ->).
  - unfold Persisting.batchGetVideoStatistics, bind.
    by destruct (all_recording_persisting apiKey
                   (slices (length videoIds) 50 0 videoIds) [] w)
      as (results & w' & ->).
Qed.

(** X22. In src/index.ts the statistics come back aligned with the request:
    the call never rejects, and its answer holds exactly one record per
    requested id, in the order of the request, each either delivered by a
    fulfilled request or the "N/A" record for its id. *)
Theorem batchGetVideoStatistics_aligned apiKey videoIds w :
  ∃ stats w',
    IndexTs.batchGetVideoStatistics fetch apiKey videoIds w = (inr stats, w')
    ∧ stat_videoId <$> stats = videoIds
    ∧ Forall (λ s, returned fetch s ∨ s = not_available (stat_videoId s)) stats.
Proof.
  unfold IndexTs.batchGetVideoStatistics, bind.
  destruct (all_getVideoStatistics_one_per_id fetch apiKey
              (slices (length videoIds) 50 0 videoIds) w)
    as (results & w' & -> & Hids & Hr).
  rewrite slices_concat in Hids. by eexists _, _.
Qed.

End GroupingMore.

Lemma getPlaylistVideos_all_pages_witness :
  IndexTs.getPlaylistVideos Stub.three_pages 7 "KEY" "UU" ()
    = Some (inr (Api.to_video
                   <$> concat [Stub.items_of "a" 50; Stub.items_of "b" 50;
                               Stub.items_of "c" 10]), ())
  ∧ Persisting.getPlaylistVideos Stub.three_pages 7 "KEY" "UU" ()
    = Some (inr (Api.to_video
                   <$> concat [Stub.items_of "a" 50; Stub.items_of "b" 50;
                               Stub.items_of "c" 10]), ()).
Proof.
  apply (getPlaylistVideos_all_pages Stub.three_pages "KEY" "UU" ()
           [Stub.items_of "a" 50; Stub.items_of "b" 50; Stub.items_of "c" 10]
           () 7).
  - eapply Api.serves_more with (t := "P2"); [vm_compute; reflexivity|reflexivity|].
    eapply Api.serves_more with (t := "P3"); [vm_compute; reflexivity|reflexivity|].
    eapply Api.serves_last; [vm_compute; reflexivity|reflexivity].
  - simpl. lia.
Defined.

Lemma getPlaylistVideos_endless_witness :
  IndexTs.getPlaylistVideos Stub.endless 1000 "KEY" "UU" () = None
  ∧ Persisting.getPlaylistVideos Stub.endless 1000 "KEY" "UU" () = None.
Proof.
  apply (getPlaylistVideos_endless Stub.endless "KEY" "UU" () 1000).
  intros url []. exists (Stub.items_of "a" 1), "again", (). split; reflexivity.
Defined.

(** ** The persisting handler when a collaborator is down *)

Section Outages.
Import Api Persisting.
Context {W : Type}.
Variable fetch_playlistItems : string → M W playlist_page.
Variable fetch_videos : string → M W stats_page.
Variable select_videos : M W (list (Z * string)).
Variable insert_videos : list Persisting.video_row → M W (list Persisting.video_record).
Variable fetch_channels : string → M W channels_page.
Variable now : W → Z.
Variable select_channel : string → M W (option Persisting.channel_record).
Variable insert_channel : string → M W (list Persisting.channel_record).
Variable insert_statistics
  : list Persisting.stats_row → M W (list Persisting.stats_record).

(** Requests that all failed delivered nothing. *)
Lemma delivered_failed (log : list (string * (exn + stats_page))) :
  Forall (λ o, ∃ e, o.2 = inl e) log → concat (delivered <$> log.*2) = [].
Proof.
  induction 1 as [|[url r] log [e Hr] _ IH]; [done|].
  simpl in Hr. subst r. by rewrite !fmap_cons.
Qed.

(** X23. A statistics outage degrades the report and writes no snapshot.
    Take a run of the persisting handler in which the input is accepted,
    the playlist is fetched and holds a video, every statistics request of
    the run fails, the channel row is found or created, and the videos are
    stored. Then the handler answers with the report "200 OK" that carries
    "N/A" for viewCount, likeCount and commentCount in every entry, and the
    world it leaves is the very world [batchInsertVideos] left: the
    statistics insert is not invoked, so no statistics row is written. *)
Theorem persisting_handler_statistics_outage
    fuel apiKey q username id w w1 videos w2 log w3 channel w4 videoIdMap w5 :
  Resolver.extractUsername q = Some username →
  Persisting.getUploadsChannelId fetch_channels apiKey username w
    = (inr (Some id), w1) →
  Persisting.getPlaylistVideos fetch_playlistItems fuel apiKey id w1
    = Some (inr videos, w2) →
  videos ≠ [] →
  (Persisting.batchGetVideoStatistics (observing fetch_videos) apiKey
     (videoId <$> videos) ([], w2)).2 = (log, w3) →
  Forall (λ o, ∃ e, o.2 = inl e) log →
  Persisting.insertChannel select_channel insert_channel username w3
    = (inr (Some channel), w4) →
  Persisting.batchInsertVideos select_videos insert_videos
    ((λ video,
        Persisting.VideoRow (videoId video) (Persisting.ch_id channel)
          (videoTitle video) (watch_url (videoId video)) (thumbnailUrl video))
       <$> videos) w4
    = (inr videoIdMap, w5) →
  Persisting.handler fetch_playlistItems fetch_videos select_videos
    insert_videos fetch_channels now select_channel insert_channel
    insert_statistics fuel apiKey (Some q) w
  = Some (inr (Persisting.Report "200 OK" (length videos) (now w5 - now w)
                 ((λ video,
                     Persisting.Entry (videoId video) username
                       (videoTitle video) (watch_url (videoId video))
                       "N/A" "N/A" "N/A" (thumbnailUrl video)) <$> videos)),
          w5).
Proof.
  intros Hq Hup Hvideos Hne Hobs Hfail Hch Hins.
  unfold Persisting.handler.
  assert (truthy q = true) as Hqt.
  { destruct q; [|done]. by vm_compute in Hq. }
  simpl. rewrite Hqt, Hq. simpl.
  rewrite (extractUsername_truthy _ _ Hq). simpl. rewrite Hup.
  destruct (persisting_getUploadsChannelId_fulfils fetch_channels apiKey
              username w) as (found & w1' & Hup' & Hid).
  rewrite Hup in Hup'. injection Hup' as <- <-.
  simpl. rewrite (Hid id eq_refl). simpl. rewrite Hvideos.
  destruct (Nat.eqb_spec (length videos) 0) as [Hlen|_].
  { by destruct videos. }
  destruct (batchGetVideoStatistics_observed fetch_videos apiKey
              (videoId <$> videos) w2)
    as (log' & w3' & _ & Hrun & Hstats & _).
  rewrite Hrun in Hobs. simpl in Hobs. injection Hobs as -> ->.
  rewrite (delivered_failed log Hfail) in Hstats.
  unfold bind at 1. rewrite Hstats.
  unfold bind at 1. rewrite Hch.
  unfold bind at 1. rewrite Hins.
  unfold Persisting.batchInsertVideoStatistics, autochunk, bind.
  rewrite !fmap_nil, plan_nil by (unfold D1_MAX_PARAMETERS; lia).
  simpl. unfold Persisting.videosWithStats. by rewrite length_fmap.
Qed.

(** X24. A store that rejects the video insert is fatal for the request:
    when the playlist was fetched, at least one of its videos is new to the
    store and the insert operation rejects, the persisting handler rejects
    with the value the insert rejected with, in the world left by the
    select; nothing is reported and no statistics row is written. *)
Theorem persisting_handler_insert_rejected
    fuel apiKey q username id w w1 videos w2 stats w3 channel w4 existing w5
    e video :
  Resolver.extractUsername q = Some username →
  Persisting.getUploadsChannelId fetch_channels apiKey username w
    = (inr (Some id), w1) →
  Persisting.getPlaylistVideos fetch_playlistItems fuel apiKey id w1
    = Some (inr videos, w2) →
  Persisting.batchGetVideoStatistics fetch_videos apiKey (videoId <$> videos) w2
    = (inr stats, w3) →
  Persisting.insertChannel select_channel insert_channel username w3
    = (inr (Some channel), w4) →
  select_videos w4 = (inr existing, w5) →
  video ∈ videos → videoId video ∉ existing.*2 →
  (∀ c st, insert_videos c st = (inl e, st)) →
  Persisting.handler fetch_playlistItems fetch_videos select_videos
    insert_videos fetch_channels now select_channel insert_channel
    insert_statistics fuel apiKey (Some q) w
  = Some (inl e, w5).
Proof.
  intros Hq Hup Hvideos Hstats Hch Hsel Hin Hnew Hrej.
  unfold Persisting.handler.
  assert (truthy q = true) as Hqt.
  { destruct q; [|done]. by vm_compute in Hq. }
  simpl. rewrite Hqt, Hq. simpl.
  rewrite (extractUsername_truthy _ _ Hq). simpl. rewrite Hup.
  destruct (persisting_getUploadsChannelId_fulfils fetch_channels apiKey
              username w) as (found & w1' & Hup' & Hid).
  rewrite Hup in Hup'. injection Hup' as <- <-.
  simpl. rewrite (Hid id eq_refl). simpl. rewrite Hvideos.
  destruct (Nat.eqb_spec (length videos) 0) as [Hlen|_].
  { destruct videos; [by apply elem_of_nil in Hin|done]. }
  unfold bind at 1. rewrite Hstats.
  unfold bind at 1. rewrite Hch.
  unfold bind at 1.
  unfold Persisting.batchInsertVideos, bind at 1. rewrite Hsel.
  rewrite new_rows_filter. unfold bind at 1.
  set (rows := filter _ _).
  assert (rows ≠ []) as Hrows.
  { intros Hnil.
    assert (Persisting.VideoRow (videoId video) (Persisting.ch_id channel)
              (videoTitle video) (watch_url (videoId video))
              (thumbnailUrl video) ∈ rows) as Hrow.
    { apply list_elem_of_filter. split; [done|].
      apply list_elem_of_fmap. by exists video. }
    rewrite Hnil in Hrow. by apply elem_of_nil in Hrow. }
  unfold autochunk.
  destruct (plan rows 0) as [e'|cs] eqn:Hplan.
  - exfalso.
    assert (reaches_execution rows 0) as [cs Hcs]; [|congruence].
    apply reaches_execution_plan; [unfold D1_MAX_PARAMETERS; lia|].
    apply Forall_forall. intros row _. rewrite video_row_parameters.
    unfold D1_MAX_PARAMETERS. lia.
  - destruct cs as [|c cs].
    { apply plan_concat in Hplan. simpl in Hplan. by destruct Hrows. }
    simpl. unfold bind. by rewrite Hrej.
Qed.

End Outages.

Lemma persisting_handler_statistics_outage_witness :
  let table := (Stub.table_insert [Stub.row_of "a0"; Stub.row_of "a1"] []).2 in
  Persisting.handler
    (λ u, Stub.ignoring (Stub.one_page u))
    (λ u, Stub.ignoring (Stub.stats_down u))
    (unspied Stub.table_select) (λ rows, unspied (Stub.table_insert rows))
    (λ u, Stub.ignoring (Stub.channel_found u))
    (λ st, Stub.table_clock st.2) Stub.no_channel Stub.channel_insert
    (spy (λ rows, Stub.ignoring (Stub.stats_insert rows)))
    3 "KEY" (Some "@foo") ([], [])
  = Some (inr (Persisting.Report "200 OK" 2 2
                 ((λ video,
                     Persisting.Entry (Api.videoId video) "@foo"
                       (Api.videoTitle video)
                       (Api.watch_url (Api.videoId video))
                       "N/A" "N/A" "N/A" (Api.thumbnailUrl video))
                    <$> (Api.to_video <$> Stub.items_of "a" 2))),
          ([], table)).
Proof.
  intros table.
  refine (persisting_handler_statistics_outage
           (λ u, Stub.ignoring (Stub.one_page u))
           (λ u, Stub.ignoring (Stub.stats_down u))
           (unspied Stub.table_select)
           (λ rows, unspied (Stub.table_insert rows))
           (λ u, Stub.ignoring (Stub.channel_found u))
           (λ st, Stub.table_clock st.2) Stub.no_channel Stub.channel_insert
           (spy (λ rows, Stub.ignoring (Stub.stats_insert rows)))
           3 "KEY" "@foo" "@foo" "UU" ([], []) ([], [])
           (Api.to_video <$> Stub.items_of "a" 2) ([], [])
           [(Api.videos_url "KEY" ["a0"; "a1"], inl (Error "fetch failed"))]
           ([], []) (Persisting.ChannelRecord 1 "@foo") ([], [])
           (Persisting.set_all [("a0", 1); ("a1", 2)] ∅)
           ([], table) _ _ _ _ _ _ _ _).
  - reflexivity.
  - vm_compute. reflexivity.
  - vm_compute. reflexivity.
  - discriminate.
  - vm_compute. reflexivity.
  - repeat constructor. by eexists.
  - vm_compute. reflexivity.
  - vm_compute. reflexivity.
Defined.

Lemma persisting_handler_insert_rejected_witness :
  Persisting.handler Stub.one_page Stub.empty_count (ret []) Stub.insert_down
    Stub.channel_found (λ _, 0) Stub.no_channel Stub.channel_insert
    Stub.stats_insert 3 "KEY" (Some "@foo") ()
  = Some (inl (Error "D1_ERROR: backend unavailable"), ()).
Proof.
  apply (persisting_handler_insert_rejected
           Stub.one_page Stub.empty_count (ret []) Stub.insert_down
           Stub.channel_found (λ _, 0) Stub.no_channel Stub.channel_insert
           Stub.stats_insert 3 "KEY" "@foo" "@foo" "UU" () ()
           (Api.to_video <$> Stub.items_of "a" 2) ()
           [Api.Stat "a" "" "2" "1"] ()
           (Persisting.ChannelRecord 1 "@foo") () [] ()
           (Error "D1_ERROR: backend unavailable")
           (Api.Video "a0" "title a0" (Some (Stub.thumbnail_of "a0")))).
  - reflexivity.
  - vm_compute. reflexivity.
  - vm_compute. reflexivity.
  - vm_compute. reflexivity.
  - vm_compute. reflexivity.
  - reflexivity.
  - vm_compute. left.
  - intros Hin. by apply elem_of_nil in Hin.
  - reflexivity.
Defined.
